(** * Replit_Clone: workspace session gateway, file tree and S3 provisioning

    A shallow embedding of the parts of the repository that the
    specification talks about:
    - [Pty]: the [TerminalManager] class of init-service/src/index.ts
      (pseudo-terminal sessions keyed by socket id);
    - [Gateway]: the socket handlers [updateContent] and [fetchContent]
      together with [saveFile], [fetchFileContent] (fs utilities) and
      [saveToS3] (aws.ts), as asynchronous tasks completed in any order;
    - [Merge]: the client-side merge of [fetchDir] results in
      CodingPage.tsx ([onSelect]);
    - [S3Copy]: [copyS3Folder] of init-service/src/aws.ts;
    - [FileManager]: [buildFileTree] and [findFileByName] of
      frontend/.../utils/file-manager.tsx;
    - [MergeProps], [PtyProps], [Connection], [S3CopyProps] and
      [FileTreeProps]: the connection listener, [projectHandler], the
      file tree's [DirDiv]/[FileDiv]/[FileIcon] with [getIcon], and
      further properties of the functions above. *)

From Stdlib Require Import Lia Ascii.
From stdpp Require Import base gmap strings list pretty.
From Equations Require Import Equations.

(** A JavaScript computation either produces a value or throws. *)
Inductive js {A : Type} :=
| Ok (a : A)
| Throw (msg : string).
Arguments js : clear implicits.

(* ================================================================= *)
(** ** TerminalManager *)

Module Pty.

(** A pid as returned by node-pty ([term.pid], a JS number). *)
Abbreviation pid := N.

(** [{ terminal: IPty, replId: string }]; the [IPty] object is referred
    to by its pid. *)
Record Session := mkSession { terminal : pid; replId : string }.

(** The state of a spawned pseudo-terminal process: whether it still
    runs, the input written to it, and the socket its [onData] callback
    emits to. *)
Record Proc := mkProc { running : bool; stdin : list string; sink : string }.

(** The manager: [this.sessions] (a JS object used as a map keyed by
    strings), the process table, the next pid the OS hands out, and the
    [socket.emit('terminal', ...)] events produced by [onData]
    callbacks, oldest first. *)
Record Manager := mkManager {
  sessions : gmap string Session;
  procs : gmap pid Proc;
  next_pid : pid;
  emitted : list (string * string)
}.

(** A fresh manager ([new TerminalManager()]) on a machine whose next
    pid is [p]. *)
Definition boot (p : pid) : Manager := mkManager ∅ ∅ p [].

(** JS converts a numeric property key to its decimal string:
    [this.sessions[term.pid]] reads key [String(term.pid)]. *)
Definition pid_key (p : pid) : string := pretty p.

(** [fork(SHELL, [], ...)]: spawn a running process with a fresh pid;
    its [onData] listener emits to socket [sock]. *)
Definition fork (sock : string) (m : Manager) : pid * Manager :=
  let p := next_pid m in
  (p, mkManager (sessions m) (<[p := mkProc true [] sock]> (procs m))
                (p + 1)%N (emitted m)).

(** The listener installed by [term.on('exit', ...)] in [createPty]:
    [delete this.sessions[term.pid]]. *)
Definition exit_handler (p : pid) (m : Manager) : Manager :=
  mkManager (delete (pid_key p) (sessions m)) (procs m) (next_pid m) (emitted m).

(** The process [p] terminates (by itself or because it was killed):
    it stops running and node-pty fires its ['exit'] listener. A process
    that already stopped fires nothing. *)
Definition proc_exit (p : pid) (m : Manager) : Manager :=
  match procs m !! p with
  | Some pr =>
      if running pr then
        exit_handler p
          (mkManager (sessions m)
             (<[p := mkProc false (stdin pr) (sink pr)]> (procs m))
             (next_pid m) (emitted m))
      else m
  | None => m
  end.

(** [term.kill()]: the shell is signalled and terminates. *)
Definition kill (p : pid) (m : Manager) : Manager := proc_exit p m.

(** The process [p] prints [data]: its ['data'] listener calls
    [onData(data, term.pid)], which emits on the socket. *)
Definition proc_output (p : pid) (data : string) (m : Manager) : Manager :=
  match procs m !! p with
  | Some pr =>
      if running pr then
        mkManager (sessions m) (procs m) (next_pid m)
          (emitted m ++ [(sink pr, data)])
      else m
  | None => m
  end.

(** [term.write(data)]. *)
Definition term_write (p : pid) (data : string) (m : Manager) : Manager :=
  match procs m !! p with
  | Some pr =>
      mkManager (sessions m)
        (<[p := mkProc (running pr) (stdin pr ++ [data]) (sink pr)]> (procs m))
        (next_pid m) (emitted m)
  | None => m
  end.

(** [createPty(id, replId, onData)], called from the [requestTerminal]
    handler of socket [sock]: fork, store the session under [id],
    install the exit listener. Returns the new terminal. *)
Definition createPty (id replId0 sock : string) (m : Manager) : pid * Manager :=
  let '(p, m1) := fork sock m in
  (p, mkManager (<[id := mkSession p replId0]> (sessions m1))
                (procs m1) (next_pid m1) (emitted m1)).

(** [write(terminalId, data)]:
    [this.sessions[terminalId]?.terminal.write(data)]. The optional
    chain stops at an absent session. *)
Definition write (terminalId data : string) (m : Manager) : js Manager :=
  match sessions m !! terminalId with
  | None => Ok m
  | Some s => Ok (term_write (terminal s) data m)
  end.

(** [clear(terminalId)]: kill the process if there is a session, then
    [delete this.sessions[terminalId]]. *)
Definition clear (terminalId : string) (m : Manager) : Manager :=
  let m1 := match sessions m !! terminalId with
            | Some s => kill (terminal s) m
            | None => m
            end in
  mkManager (delete terminalId (sessions m1)) (procs m1) (next_pid m1) (emitted m1).

(** Every session refers to a pid the manager already handed out. *)
Definition wf (m : Manager) : Prop :=
  map_Forall (fun _ s => (terminal s < next_pid m)%N) (sessions m).

(** Running processes that no session refers to. *)
Definition orphaned (m : Manager) (p : pid) : Prop :=
  (exists pr, procs m !! p = Some pr /\ running pr = true) /\
  (forall k s, sessions m !! k = Some s -> terminal s <> p).

(** Deleting the exit listener's key leaves every other key alone. *)
Lemma proc_exit_sessions_ne (p : pid) (m : Manager) (k : string) :
  k <> pid_key p -> sessions (proc_exit p m) !! k = sessions m !! k.
Proof.
  intros Hk. unfold proc_exit.
  destruct (procs m !! p) as [pr|]; [|reflexivity].
  destruct (running pr); [|reflexivity].
  simpl. apply lookup_delete_ne. congruence.
Qed.

Lemma wf_boot (p : pid) : wf (boot p).
Proof. unfold wf, boot. simpl. apply map_Forall_empty. Qed.

Lemma clear_sessions_self (k : string) (m : Manager) :
  sessions (clear k m) !! k = None.
Proof. unfold clear. simpl. apply lookup_delete_eq. Qed.

(** C1 (as amended). A second [createPty] on the same key replaces the
    mapping but does not terminate the first process: the key maps to
    the new process only, and the first process keeps running with no
    session referring to it. *)
Theorem createPty_twice_orphans_first (m : Manager) (k r1 r2 s1 s2 : string) :
  wf m ->
  let '(p1, m1) := createPty k r1 s1 m in
  let '(p2, m2) := createPty k r2 s2 m1 in
  sessions m2 !! k = Some (mkSession p2 r2) /\ p1 <> p2 /\ orphaned m2 p1.
Proof.
  intros Hwf. unfold createPty, fork. simpl.
  split; [apply lookup_insert_eq|].
  split; [lia|].
  split.
  - eexists. split.
    + cbn [procs]. rewrite lookup_insert_ne by lia. apply lookup_insert_eq.
    + reflexivity.
  - intros k' s Hs. cbn [sessions] in Hs.
    apply lookup_insert_Some in Hs as [[_ <-]|[Hne Hs]]; simpl; [lia|].
    apply lookup_insert_Some in Hs as [[Heq <-]|[_ Hs]]; [congruence|].
    specialize (Hwf k' s Hs). simpl in Hwf. lia.
Qed.

Lemma createPty_twice_orphans_first_witness :
  wf (boot 4242) /\
  (let '(p1, m1) := createPty "sockA" "w1" "sockA" (boot 4242) in
   let '(p2, m2) := createPty "sockA" "w1" "sockA" m1 in
   sessions m2 !! "sockA" = Some (mkSession p2 "w1") /\ p1 <> p2 /\ orphaned m2 p1).
Proof.
  split; [apply wf_boot|].
  apply (createPty_twice_orphans_first (boot 4242) "sockA" "w1" "w1" "sockA" "sockA").
  apply wf_boot.
Defined.

(** C1, as stated, fails: after two [createPty("sockA", ...)] calls on a
    fresh manager, the process of the first call (pid 4242) still runs
    and no session refers to it. *)
Lemma createPty_twice_first_not_terminated :
  let '(p1, m1) := createPty "sockA" "w1" "sockA" (boot 4242) in
  let '(p2, m2) := createPty "sockA" "w1" "sockA" m1 in
  orphaned m2 p1.
Proof.
  simpl. split.
  - eexists. split; [reflexivity|reflexivity].
  - intros k s Hs. cbn [sessions] in Hs.
    apply lookup_insert_Some in Hs as [[_ <-]|[Hne Hs]]; [simpl; lia|].
    apply lookup_insert_Some in Hs as [[Heq <-]|[_ Hs]]; [congruence|].
    rewrite lookup_empty in Hs. discriminate.
Qed.

(** C2 (code defect). The exit listener deletes the key [String(pid)]
    instead of the session id: once the shell of socket
    ["gT8x_Qz2AbCdEfGhAAAB"] (pid 4242) exits, the session map still
    holds an entry for that socket. *)
Theorem exit_leaves_stale_session :
  let '(p, m1) := createPty "gT8x_Qz2AbCdEfGhAAAB" "w1" "gT8x_Qz2AbCdEfGhAAAB" (boot 4242) in
  let m2 := proc_exit p m1 in
  sessions m2 !! "gT8x_Qz2AbCdEfGhAAAB" = Some (mkSession 4242 "w1") /\
  procs m2 !! p = Some (mkProc false [] "gT8x_Qz2AbCdEfGhAAAB").
Proof. vm_compute. split; reflexivity. Qed.

(** C6. [write] on a key without a session (never created, or removed
    by [clear]) returns normally and changes nothing: no process input,
    no emitted event, no session. *)
Theorem write_absent_session_noop (m : Manager) (k d : string) :
  sessions m !! k = None \/ (exists m0, m = clear k m0) ->
  write k d m = Ok m.
Proof.
  intros [Hk|[m0 ->]]; unfold write.
  - rewrite Hk. reflexivity.
  - rewrite clear_sessions_self. reflexivity.
Qed.

Lemma write_absent_session_noop_witness :
  let m := clear "sockA" (snd (createPty "sockA" "w1" "sockA" (boot 4242))) in
  (sessions m !! "sockA" = None \/ (exists m0, m = clear "sockA" m0)) /\
  write "sockA" "ls" m = Ok m.
Proof.
  simpl. split.
  - right. eexists. reflexivity.
  - apply write_absent_session_noop. right. eexists. reflexivity.
Defined.

End Pty.

(* ================================================================= *)
(** ** Socket handlers [updateContent] / [fetchContent] *)

Module Gateway.

(** Observable effects, oldest first, tagged with the handler
    invocation that caused them. *)
Inductive effect :=
| FsTruncate (hid : nat) (file : string)           (** [fs.writeFile] opened the file *)
| FsWrite (hid : nat) (file content : string)      (** [fs.writeFile] done *)
| S3PutIssued (hid : nat) (key content : string)   (** [saveToS3] called *)
| S3PutDone (hid : nat) (key : string)             (** [putObject] acknowledged *)
| FsRead (hid : nat) (file content : string).      (** [fs.readFile] done *)

(** A handler suspended at an [await]. [saveFile] is [fs.writeFile],
    which first opens the file for writing (creating it, or truncating it
    to empty), then writes the content. *)
Inductive task :=
| UpdOpening (replId filePath content : string)  (** [await saveFile(...)], before the open *)
| UpdWriting (replId filePath content : string)  (** [await saveFile(...)], file open and empty *)
| UpdPutting (replId filePath content : string)  (** [await saveToS3(...)] *)
| FetchReading (filePath : string).              (** [await fetchFileContent(...)] *)

(** The server side of one connection: the local mirror ([fs], keyed by
    the full path handed to the fs module), the bucket ([s3], keyed by
    object key), [console.error] output, callback replies, promise
    rejections that escape a handler, the effect trace, the handlers in
    flight, and whether the server process is still running. *)
Record World := mkWorld {
  fs : gmap string string;
  s3 : gmap string string;
  logs : list string;
  replies : list (nat * string);
  unhandled : list (nat * string);
  trace : list effect;
  tasks : gmap nat task;
  next_hid : nat;
  alive : bool
}.

(** Events: a client message dispatched to a handler, or the
    completion (success or failure) of the I/O a handler awaits. The
    I/O of different handlers completes in any order (libuv). *)
Inductive action :=
| UpdateContent (replId filePath content : string)
| FetchContent (filePath : string)
| Complete (hid : nat) (success : bool).

Definition full_path (filePath : string) : string := "/workspace/" +:+ filePath.

(** [saveToS3(`code/${replId}`, filePath, content)] puts at key
    [`${key}${filePath}`]. *)
Definition s3_key (replId filePath : string) : string :=
  "code/" +:+ replId +:+ filePath.

(** Run a handler until its first [await]. *)
Definition spawn (w : World) (t : task) : World :=
  mkWorld (fs w) (s3 w) (logs w) (replies w) (unhandled w) (trace w)
    (<[next_hid w := t]> (tasks w)) (S (next_hid w)) (alive w).

(** A handler's promise rejects. socket.io ignores the promise the
    handler returns and nothing installs an [unhandledRejection]
    listener, so with Node's default mode (since Node 15) the rejection
    is thrown as an uncaught exception: the process exits, and every
    handler still in flight is lost. *)
Definition reject (w : World) (h : nat) (why : string) : World :=
  mkWorld (fs w) (s3 w) (logs w) (replies w) (unhandled w ++ [(h, why)])
    (trace w) ∅ (next_hid w) false.

Definition step_live (w : World) (a : action) : World :=
  match a with
  | UpdateContent r p c =>
      (* const fullPath = `/workspace/${filePath}`; await saveFile(...) *)
      spawn w (UpdOpening r p c)
  | FetchContent p =>
      (* const fullPath = `/workspace/${filePath}`; await fetchFileContent(...) *)
      spawn w (FetchReading p)
  | Complete h ok =>
      match tasks w !! h with
      | None => w
      | Some (UpdOpening r p c) =>
          if ok then
            (* open(fullPath, 'w'): the file now exists and is empty *)
            mkWorld (<[full_path p := ""]> (fs w)) (s3 w) (logs w) (replies w)
              (unhandled w) (trace w ++ [FsTruncate h (full_path p)])
              (<[h := UpdWriting r p c]> (tasks w)) (next_hid w) (alive w)
          else reject w h "saveFile"
      | Some (UpdWriting r p c) =>
          if ok then
            (* saveFile resolved; the handler goes on to saveToS3 *)
            mkWorld (<[full_path p := c]> (fs w)) (s3 w) (logs w) (replies w)
              (unhandled w)
              (trace w ++ [FsWrite h (full_path p) c; S3PutIssued h (s3_key r p) c])
              (<[h := UpdPutting r p c]> (tasks w)) (next_hid w) (alive w)
          else reject w h "saveFile"
      | Some (UpdPutting r p c) =>
          if ok then
            mkWorld (fs w) (<[s3_key r p := c]> (s3 w)) (logs w) (replies w)
              (unhandled w) (trace w ++ [S3PutDone h (s3_key r p)])
              (delete h (tasks w)) (next_hid w) (alive w)
          else reject w h "saveToS3"
      | Some (FetchReading p) =>
          match fs w !! full_path p with
          | Some c =>
              if ok then
                (* callback(data) *)
                mkWorld (fs w) (s3 w) (logs w) (replies w ++ [(h, c)])
                  (unhandled w) (trace w ++ [FsRead h (full_path p) c])
                  (delete h (tasks w)) (next_hid w) (alive w)
              else reject w h "fetchFileContent"
          | None => reject w h "fetchFileContent"
          end
      end
  end.

(** Once the process has exited, nothing happens any more. *)
Definition step (w : World) (a : action) : World :=
  if alive w then step_live w a else w.

Definition run (w : World) (acts : list action) : World := fold_left step acts w.

(** A connection whose mirror holds [files]. *)
Definition connect (files : gmap string string) : World :=
  mkWorld files ∅ [] [] [] [] ∅ 0 true.

(** Every [saveToS3] call in [tr] comes after the local write of the
    same handler invocation, with the same content. *)
Definition local_first (tr : list effect) : Prop :=
  forall n h k c, nth_error tr n = Some (S3PutIssued h k c) ->
  exists m f, m < n /\ nth_error tr m = Some (FsWrite h f c).

Lemma local_first_app (tr new : list effect) :
  local_first tr -> local_first new -> local_first (tr ++ new).
Proof.
  intros Htr Hnew n h k c Hn.
  destruct (decide (n < length tr)) as [Hlt|Hge].
  - rewrite nth_error_app1 in Hn by lia.
    destruct (Htr _ _ _ _ Hn) as (m & f & Hm & Hf).
    exists m, f. split; [lia|]. rewrite nth_error_app1 by lia. exact Hf.
  - rewrite nth_error_app2 in Hn by lia.
    destruct (Hnew _ _ _ _ Hn) as (m & f & Hm & Hf).
    exists (length tr + m), f. split; [lia|].
    rewrite nth_error_app2 by lia.
    replace (length tr + m - length tr) with m by lia. exact Hf.
Qed.

Lemma local_first_nil : local_first [].
Proof. intros [|n] ? ? ? H; discriminate. Qed.

(** One step appends to the trace a segment that is itself ordered. *)
Lemma step_trace (w : World) (a : action) :
  exists new, trace (step w a) = trace w ++ new /\ local_first new.
Proof.
  unfold step. destruct (alive w).
  2:{ exists []. rewrite app_nil_r. split; [reflexivity|apply local_first_nil]. }
  destruct a as [r p c|p|h ok]; simpl.
  - exists []. rewrite app_nil_r. split; [reflexivity|apply local_first_nil].
  - exists []. rewrite app_nil_r. split; [reflexivity|apply local_first_nil].
  - destruct (tasks w !! h) as [[r p c|r p c|r p c|p]|]; simpl.
    + destruct ok; simpl.
      * eexists. split; [reflexivity|].
        intros [|[|n]] h' k c' Hn; simpl in Hn; discriminate.
      * exists []. rewrite app_nil_r. split; [reflexivity|apply local_first_nil].
    + destruct ok; simpl.
      * eexists. split; [reflexivity|].
        intros [|[|[|n]]] h' k c' Hn; simpl in Hn; try discriminate.
        inversion Hn; subst. exists 0, (full_path p). split; [lia|reflexivity].
      * exists []. rewrite app_nil_r. split; [reflexivity|apply local_first_nil].
    + destruct ok; simpl.
      * eexists. split; [reflexivity|].
        intros [|[|[|n]]] h' k c' Hn; simpl in Hn; discriminate.
      * exists []. rewrite app_nil_r. split; [reflexivity|apply local_first_nil].
    + destruct (fs w !! full_path p) as [c|]; [destruct ok|]; simpl.
      * eexists. split; [reflexivity|].
        intros [|[|[|n]]] h' k c' Hn; simpl in Hn; discriminate.
      * exists []. rewrite app_nil_r. split; [reflexivity|apply local_first_nil].
      * exists []. rewrite app_nil_r. split; [reflexivity|apply local_first_nil].
    + exists []. rewrite app_nil_r. split; [reflexivity|apply local_first_nil].
Qed.

Lemma run_local_first (acts : list action) (w : World) :
  local_first (trace w) -> local_first (trace (run w acts)).
Proof.
  revert w. induction acts as [|a acts IH]; intros w Hw; simpl; [exact Hw|].
  apply IH. destruct (step_trace w a) as (new & -> & Hnew).
  apply local_first_app; assumption.
Qed.

Lemma run_dead (acts : list action) (w : World) :
  alive w = false -> run w acts = w.
Proof.
  revert w. induction acts as [|a acts IH]; intros w Hw; [reflexivity|].
  cbn [run fold_left]. unfold step at 2. rewrite Hw. apply IH, Hw.
Qed.

(** C3 (code defect). When [saveFile] succeeds and [saveToS3] then
    fails, the local write stays, nothing is logged, the handler's
    promise rejects with nobody handling it, and the process exits: every
    other handler in flight is dropped and no later request is served. *)
Theorem update_put_failure_crashes (w : World) (r p c : string) :
  alive w = true ->
  let h := next_hid w in
  let w' := run w [UpdateContent r p c; Complete h true; Complete h true; Complete h false] in
  fs w' = <[full_path p := c]> (fs w) /\
  logs w' = logs w /\
  unhandled w' = unhandled w ++ [(h, "saveToS3")] /\
  alive w' = false /\
  tasks w' = ∅ /\
  (forall acts, run w' acts = w').
Proof.
  intros Ha. cbv zeta.
  destruct w as [fs0 s30 logs0 rep0 unh0 tr0 tk0 nh0 al0]. cbn [alive] in Ha. subst al0.
  cbn [run fold_left step step_live spawn alive tasks next_hid].
  repeat (first [rewrite lookup_insert_eq | progress cbn [step step_live spawn reject alive tasks fs next_hid]]).
  split; [apply insert_insert_eq|]. cbn.
  split; [reflexivity|]. split; [reflexivity|]. split; [reflexivity|]. split; [reflexivity|].
  intros acts. apply run_dead. reflexivity.
Qed.

Lemma update_put_failure_crashes_witness :
  alive (connect {["/workspace//a/x.txt" := "old"]}) = true /\
  (let w := connect {["/workspace//a/x.txt" := "old"]} in
   let w' := run w [UpdateContent "w1" "/a/x.txt" "hello"; Complete 0 true; Complete 0 true;
                    Complete 0 false] in
   fs w' = <[full_path "/a/x.txt" := "hello"]> (fs w) /\
   logs w' = logs w /\
   unhandled w' = unhandled w ++ [(0, "saveToS3")] /\
   alive w' = false /\
   tasks w' = ∅ /\
   (forall acts, run w' acts = w')).
Proof.
  split; [reflexivity|].
  exact (update_put_failure_crashes (connect {["/workspace//a/x.txt" := "old"]})
           "w1" "/a/x.txt" "hello" eq_refl).
Defined.

(** C5 (as amended). Along every run, [saveToS3] is only called after
    the same handler's local write finished; and a [fetchContent]
    issued once the local write has finished replies with the new
    content while the put is still pending. *)
Theorem update_local_before_remote :
  (forall (files : gmap string string) (acts : list action) n h k c,
     nth_error (trace (run (connect files) acts)) n = Some (S3PutIssued h k c) ->
     exists m f, m < n /\
       nth_error (trace (run (connect files) acts)) m = Some (FsWrite h f c)) /\
  (forall (w : World) (r p c : string),
     alive w = true ->
     let h := next_hid w in
     let w' := run w [UpdateContent r p c; Complete h true; Complete h true;
                      FetchContent p; Complete (S h) true] in
     replies w' = replies w ++ [(S h, c)] /\
     tasks w' !! h = Some (UpdPutting r p c) /\
     s3 w' = s3 w).
Proof.
  split.
  - intros files acts. apply run_local_first. apply local_first_nil.
  - intros w r p c Ha. cbv zeta.
    destruct w as [fs0 s30 logs0 rep0 unh0 tr0 tk0 nh0 al0]. cbn [alive] in Ha. subst al0.
    cbn [run fold_left step step_live spawn alive tasks next_hid].
    repeat (first [rewrite lookup_insert_eq | rewrite lookup_insert_ne by lia |
                   progress cbn [step step_live spawn reject alive tasks fs next_hid]]).
    cbn. split; [reflexivity|]. split; [|reflexivity].
    rewrite lookup_delete_ne by lia.
    rewrite lookup_insert_ne by lia. apply lookup_insert_eq.
Qed.

Lemma update_local_before_remote_witness :
  (let acts := [UpdateContent "w1" "/a/x.txt" "hello"; Complete 0 true; Complete 0 true] in
   nth_error (trace (run (connect ∅) acts)) 2 = Some (S3PutIssued 0 "code/w1/a/x.txt" "hello") /\
   exists m f, m < 2 /\
     nth_error (trace (run (connect ∅) acts)) m = Some (FsWrite 0 f "hello")) /\
  alive (connect ∅) = true /\
  (let w' := run (connect ∅) [UpdateContent "w1" "/a/x.txt" "hello"; Complete 0 true;
                              Complete 0 true; FetchContent "/a/x.txt"; Complete 1 true] in
   replies w' = [(1, "hello")] /\
   tasks w' !! 0 = Some (UpdPutting "w1" "/a/x.txt" "hello") /\
   s3 w' = ∅).
Proof.
  split.
  - simpl. split; [reflexivity|].
    apply (proj1 update_local_before_remote ∅
             [UpdateContent "w1" "/a/x.txt" "hello"; Complete 0 true; Complete 0 true] 2 0
             "code/w1/a/x.txt" "hello").
    reflexivity.
  - split; [reflexivity|].
    exact (proj2 update_local_before_remote (connect ∅) "w1" "/a/x.txt" "hello" eq_refl).
Defined.

(** C5, as stated, fails: a [fetchContent] issued right after the
    update, whose read runs once [fs.writeFile] has opened (and so
    emptied) the file but before the content is written, replies with
    the empty string; every I/O succeeds. *)
Lemma fetch_during_update_reads_empty :
  let w := run (connect {["/workspace//a/x.txt" := "old"]})
             [UpdateContent "w1" "/a/x.txt" "hello"; FetchContent "/a/x.txt";
              Complete 0 true; Complete 1 true; Complete 0 true; Complete 0 true] in
  replies w = [(1, "")] /\ unhandled w = [] /\ alive w = true /\
  fs w !! "/workspace//a/x.txt" = Some "hello" /\
  s3 w !! "code/w1/a/x.txt" = Some "hello".
Proof. vm_compute. repeat split; reflexivity. Qed.

End Gateway.

(* ================================================================= *)
(** ** Client-side merge of [fetchDir] results (CodingPage.tsx) *)

Module Merge.

(** [RemoteFile]: [{ type: "file" | "dir"; name; path }]. *)
Inductive rtype := RFile | RDir.

Record RemoteFile := mkRemote { rtype_of : rtype; name : string; path : string }.

(** [Array.prototype.findIndex]: the index of the first element
    satisfying [p], or -1. *)
Fixpoint findIndex_from {A} (p : A -> bool) (l : list A) (i : Z) : Z :=
  match l with
  | [] => (-1)%Z
  | x :: xs => if p x then i else findIndex_from p xs (i + 1)%Z
  end.

Definition findIndex {A} (p : A -> bool) (l : list A) : Z := findIndex_from p l 0.

(** [Array.prototype.filter] with a callback receiving the index. *)
Fixpoint filteri_from {A} (f : A -> Z -> bool) (l : list A) (i : Z) : list A :=
  match l with
  | [] => []
  | x :: xs => if f x i then x :: filteri_from f xs (i + 1)%Z
               else filteri_from f xs (i + 1)%Z
  end.

Definition filteri {A} (f : A -> Z -> bool) (l : list A) : list A := filteri_from f l 0.

(** The [setFileStructure] updater in [onSelect]:
    [const allFiles = [...prev, ...data];
     return allFiles.filter((file, index, self) =>
       index === self.findIndex(f => f.path === file.path));] *)
Definition merge (prev data : list RemoteFile) : list RemoteFile :=
  let allFiles := prev ++ data in
  filteri (fun file index =>
             Z.eqb index (findIndex (fun f => String.eqb (path f) (path file)) allFiles))
          allFiles.

(** [fetchDir(dir, baseDir)] maps each directory entry to
    [{ type, name, path: `${baseDir}/${file.name}` }]. *)
Definition fetchDir (baseDir : string) (entries : list (rtype * string)) : list RemoteFile :=
  map (fun '(t, n) => mkRemote t n (baseDir +:+ "/" +:+ n)) entries.

(** Keep an element when no earlier element (nor [seen]) has its path. *)
Fixpoint dedup (seen : list string) (l : list RemoteFile) : list RemoteFile :=
  match l with
  | [] => []
  | x :: xs => if decide (path x ∈ seen) then dedup seen xs
               else x :: dedup (seen ++ [path x]) xs
  end.

Definition find_path (q : string) (l : list RemoteFile) : option RemoteFile :=
  find (fun f => String.eqb (path f) q) l.

Lemma findIndex_from_app_none {A} (p : A -> bool) (pre l : list A) (i : Z) :
  existsb p pre = false ->
  findIndex_from p (pre ++ l) i = findIndex_from p l (i + Z.of_nat (length pre))%Z.
Proof.
  revert i. induction pre as [|x pre IH]; intros i Hex; simpl.
  - f_equal. lia.
  - simpl in Hex. apply orb_false_iff in Hex as [Hx Hpre].
    rewrite Hx, IH by exact Hpre. f_equal. lia.
Qed.

Lemma findIndex_from_app_some {A} (p : A -> bool) (pre l : list A) (i : Z) :
  existsb p pre = true ->
  (i <= findIndex_from p (pre ++ l) i < i + Z.of_nat (length pre))%Z.
Proof.
  revert i. induction pre as [|x pre IH]; intros i Hex; simpl in *; [discriminate|].
  destruct (p x); [lia|].
  specialize (IH (i + 1)%Z Hex). lia.
Qed.

Lemma existsb_path (pre : list RemoteFile) (q : string) :
  existsb (fun f => String.eqb (path f) q) pre = true <-> In q (map path pre).
Proof.
  rewrite existsb_exists, in_map_iff. split.
  - intros (y & Hy & Heq). apply String.eqb_eq in Heq. eauto.
  - intros (y & Heq & Hy). exists y. split; [exact Hy|]. apply String.eqb_eq. exact Heq.
Qed.

(** The index-based filter of [merge], run over the suffix [suf] of
    [allFiles = pre ++ suf], keeps exactly the elements whose path
    occurs neither in [pre] nor earlier in [suf]. *)
Lemma filteri_dedup (all pre suf : list RemoteFile) (seen : list string) :
  all = pre ++ suf ->
  (forall s, s ∈ seen <-> In s (map path pre)) ->
  filteri_from (fun file index =>
                  Z.eqb index (findIndex (fun f => String.eqb (path f) (path file)) all))
               suf (Z.of_nat (length pre))
  = dedup seen suf.
Proof.
  revert pre seen. induction suf as [|x suf IH]; intros pre seen Hall Hseen; [reflexivity|].
  simpl. unfold findIndex. rewrite Hall.
  assert (Hlen : (Z.of_nat (length pre) + 1)%Z = Z.of_nat (length (pre ++ [x])))
    by (rewrite length_app; simpl; lia).
  destruct (decide (path x ∈ seen)) as [Hin|Hnin].
  - apply Hseen, existsb_path in Hin.
    pose proof (findIndex_from_app_some _ pre (x :: suf) 0 Hin) as Hlt.
    rewrite (proj2 (Z.eqb_neq _ _)) by lia.
    rewrite Hlen. rewrite <- Hall. apply IH; [rewrite Hall, <- app_assoc; reflexivity|].
    intros s. rewrite Hseen, map_app, in_app_iff. simpl.
    split; [tauto|]. intros [H|[<-|[]]]; [exact H|].
    apply existsb_path. exact Hin.
  - assert (Hex : existsb (fun f => String.eqb (path f) (path x)) pre = false).
    { apply not_true_iff_false. intros H. apply Hnin, Hseen, existsb_path, H. }
    rewrite findIndex_from_app_none by exact Hex. simpl.
    rewrite String.eqb_refl, Z.eqb_refl. f_equal.
    rewrite Hlen. rewrite <- Hall. apply IH; [rewrite Hall, <- app_assoc; reflexivity|].
    intros s. rewrite elem_of_app, list_elem_of_singleton, Hseen, map_app, in_app_iff.
    simpl. intuition congruence.
Qed.

Lemma merge_dedup (prev data : list RemoteFile) :
  merge prev data = dedup [] (prev ++ data).
Proof.
  unfold merge, filteri.
  apply (filteri_dedup (prev ++ data) [] (prev ++ data) []); [reflexivity|].
  intros s. split; intros H; [apply list_elem_of_In in H|]; simpl in H; destruct H.
Qed.

Lemma dedup_nodup (seen : list string) (l : list RemoteFile) :
  NoDup (map path (dedup seen l)) /\ (forall s, In s (map path (dedup seen l)) -> s ∉ seen).
Proof.
  revert seen. induction l as [|x l IH]; intros seen; simpl.
  - split; [constructor|intros _ []].
  - destruct (decide (path x ∈ seen)) as [Hin|Hnin]; [apply IH|].
    destruct (IH (seen ++ [path x])) as [Hnd Hout]. simpl. split.
    + constructor; [|exact Hnd].
      intros Hx. apply list_elem_of_In in Hx. apply (Hout _ Hx). apply elem_of_app. right. apply list_elem_of_singleton. reflexivity.
    + intros s [<-|Hs]; [exact Hnin|].
      intros Hs'. apply (Hout _ Hs). apply elem_of_app. left. exact Hs'.
Qed.

Lemma dedup_find (seen : list string) (l : list RemoteFile) (q : string) :
  find_path q (dedup seen l) = if decide (q ∈ seen) then None else find_path q l.
Proof.
  unfold find_path. revert seen. induction l as [|x l IH]; intros seen; simpl.
  - destruct (decide (q ∈ seen)); reflexivity.
  - destruct (decide (path x ∈ seen)) as [Hin|Hnin].
    + rewrite IH. destruct (decide (q ∈ seen)) as [Hq|Hq]; [reflexivity|].
      destruct (String.eqb_spec (path x) q) as [Heq|]; [subst q; contradiction|reflexivity].
    + simpl. rewrite IH.
      destruct (String.eqb_spec (path x) q) as [Heq|Hne].
      * subst q. destruct (decide (path x ∈ seen)); [contradiction|reflexivity].
      * destruct (decide (q ∈ seen ++ [path x])) as [Hq|Hq];
          destruct (decide (q ∈ seen)) as [Hq'|Hq']; try reflexivity.
        -- apply elem_of_app in Hq as [Hq|Hq]; [contradiction|].
           apply list_elem_of_singleton in Hq. congruence.
        -- exfalso. apply Hq. apply elem_of_app. left. exact Hq'.
Qed.

Lemma find_path_app (q : string) (l1 l2 : list RemoteFile) :
  find_path q (l1 ++ l2) =
  match find_path q l1 with Some x => Some x | None => find_path q l2 end.
Proof.
  unfold find_path. induction l1 as [|x l1 IH]; simpl; [reflexivity|].
  destruct (String.eqb (path x) q); [reflexivity|exact IH].
Qed.

(** The root listing [{a/, b.txt}] and the listing of [a/]. *)
Definition root_listing : list RemoteFile := fetchDir "" [(RDir, "a"); (RFile, "b.txt")].
Definition a_listing : list RemoteFile := fetchDir "/a" [(RFile, "x.txt")].

(** C4 (as amended). The merged list has one entry per path; for every
    path it holds the first entry of [prev ++ data] with that path, so a
    previously seen entry wins over a newly fetched one; and on the
    tree [{a/, a/x.txt, b.txt}] fetching [a/] accumulates exactly
    [/a], [/b.txt], [/a/x.txt]. *)
Theorem merge_first_entry_wins (prev data : list RemoteFile) :
  NoDup (map path (merge prev data)) /\
  (forall q, find_path q (merge prev data) = find_path q (prev ++ data)) /\
  (forall q x, find_path q prev = Some x -> find_path q (merge prev data) = Some x) /\
  merge root_listing a_listing =
    [mkRemote RDir "a" "/a"; mkRemote RFile "b.txt" "/b.txt";
     mkRemote RFile "x.txt" "/a/x.txt"].
Proof.
  rewrite merge_dedup.
  split; [apply dedup_nodup|].
  split; [intros q; rewrite dedup_find; reflexivity|].
  split.
  - intros q x Hx. rewrite dedup_find. simpl. rewrite find_path_app, Hx. reflexivity.
  - vm_compute. reflexivity.
Qed.

(** C4, as stated, fails: when [/a/x.txt] was seen as a file and a
    refetch of [a/] reports it as a directory, the merge keeps the old
    file entry and drops the newly fetched one. *)
Lemma merge_keeps_previous_entry :
  let prev := root_listing ++ a_listing in
  let data := fetchDir "/a" [(RDir, "x.txt")] in
  merge prev data = prev /\
  find_path "/a/x.txt" (merge prev data) = Some (mkRemote RFile "x.txt" "/a/x.txt") /\
  find_path "/a/x.txt" data = Some (mkRemote RDir "x.txt" "/a/x.txt").
Proof. vm_compute. split; [reflexivity|split; reflexivity]. Qed.

End Merge.

(* ================================================================= *)
(** ** [copyS3Folder] (init-service/src/aws.ts) *)

Module S3Copy.

Open Scope string_scope.

(** The bucket: its objects (key, body) in listing order, the page
    size of [listObjectsV2] (MaxKeys, at least 1), and the errors S3
    answers with: [list_fault t] is the error, if any, of the listing
    request with continuation token [t] (AccessDenied, NoSuchBucket,
    throttling, ...), and [copy_fault k] the error, if any, of a copy whose
    source is the listed key [k]. *)
Record Bucket := mkBucketF {
  objects : list (string * string);
  max_keys : positive;
  list_fault : option nat -> option string;
  copy_fault : string -> option string
}.

(** A bucket that answers every request. *)
Definition mkBucket (objects : list (string * string)) (max_keys : positive) : Bucket :=
  mkBucketF objects max_keys (fun _ => None) (fun _ => None).

Fixpoint assoc_get (k : string) (l : list (string * string)) : option string :=
  match l with
  | [] => None
  | (k', v) :: r => if String.eqb k k' then Some v else assoc_get k r
  end.

(** [putObject]/[copyObject] target: overwrite in place, or add. *)
Fixpoint assoc_put (k v : string) (l : list (string * string)) : list (string * string) :=
  match l with
  | [] => [(k, v)]
  | (k', v') :: r => if String.eqb k k' then (k, v) :: r else (k', v') :: assoc_put k v r
  end.

(** A [listObjectsV2] response; the continuation token is the offset
    of the next page (the code only passes it back). *)
Record ListResult := mkList {
  Contents : list string;
  IsTruncated : bool;
  NextContinuationToken : option nat
}.

(** The page a successful listing request returns. *)
Definition list_page (bk : Bucket) (Prefix : string) (ContinuationToken : option nat)
  : ListResult :=
  let ks := List.filter (String.prefix Prefix) (map fst (objects bk)) in
  let start := from_option id 0 ContinuationToken in
  let rest := skipn start ks in
  let n := Pos.to_nat (max_keys bk) in
  mkList (firstn n rest) (Nat.ltb n (length rest))
         (if Nat.ltb n (length rest) then Some (start + n)%nat else None).

Definition listObjectsV2 (bk : Bucket) (Prefix : string) (ContinuationToken : option nat)
  : js ListResult :=
  match list_fault bk ContinuationToken with
  | Some e => Throw e
  | None => Ok (list_page bk Prefix ContinuationToken)
  end.

(** [copyObject({CopySource: `${bucket}/${Key}`, Key: destinationKey})]:
    the source object is read under its listed key (S3 URL-decodes
    [CopySource], which for a key without [%] is that key); a copy that
    fails for any other reason is a [copy_fault]. *)
Definition copyObject (bk : Bucket) (CopySource Key : string) : js Bucket :=
  match copy_fault bk CopySource with
  | Some e => Throw e
  | None =>
      match assoc_get CopySource (objects bk) with
      | Some v => Ok (mkBucketF (assoc_put Key v (objects bk)) (max_keys bk)
                        (list_fault bk) (copy_fault bk))
      | None => Throw "NoSuchKey"
      end
  end.

(** GetSubstitution for a string replacement without captures: [$$],
    [$&], [$`] and [$'] are special, everything else is literal. *)
Fixpoint get_substitution (matched before after repl : string) : string :=
  match repl with
  | String "$"%char (String "$"%char r) =>
      String "$"%char (get_substitution matched before after r)
  | String "$"%char (String "&"%char r) => matched +:+ get_substitution matched before after r
  | String "$"%char (String "`"%char r) => before +:+ get_substitution matched before after r
  | String "$"%char (String "'"%char r) => after +:+ get_substitution matched before after r
  | String c r => String c (get_substitution matched before after r)
  | EmptyString => EmptyString
  end.

(** [str.replace(pattern, replacement)] with a string pattern: the
    first occurrence only, the replacement read by GetSubstitution. *)
Definition js_replace (str pattern replacement : string) : string :=
  match String.index 0 pattern str with
  | None => str
  | Some pos =>
      let before := String.substring 0 pos str in
      let after := String.substring (pos + String.length pattern)%nat (String.length str) str in
      before +:+ get_substitution pattern before after replacement +:+ after
  end.

(** A destination prefix in which [String.prototype.replace] reads no
    [$] pattern. *)
Fixpoint no_dollar (s : string) : bool :=
  match s with
  | EmptyString => true
  | String c r => negb (Ascii.eqb c "$") && no_dollar r
  end.

(** [const maxConcurrency = 10]; [chunks.push(Contents.slice(i, i + 10))]. *)
Definition maxConcurrency : nat := 10.

Fixpoint chunks_go {A} (fuel : nat) (l : list A) : list (list A) :=
  match fuel, l with
  | 0, _ | _, [] => []
  | S f, _ => firstn maxConcurrency l :: chunks_go f (skipn maxConcurrency l)
  end.

Definition chunks {A} (l : list A) : list (list A) := chunks_go (length l) l.

(** [await Promise.all(chunk.map(async object => { ... copyObject ... }))]:
    every copy of the chunk is attempted; the chunk fails with the
    first error. *)
Fixpoint copy_chunk (src dst : string) (chunk : list string) (bk : Bucket)
  : option string * Bucket :=
  match chunk with
  | [] => (None, bk)
  | k :: r =>
      let destinationKey := js_replace k src dst in
      match copyObject bk k destinationKey with
      | Ok bk' => copy_chunk src dst r bk'
      | Throw e =>
          let '(e', bk'') := copy_chunk src dst r bk in
          (Some (from_option id e e'), bk'')
      end
  end.

(** [for (const chunk of chunks) await Promise.all(...)]. *)
Fixpoint copy_chunks (src dst : string) (cs : list (list string)) (bk : Bucket)
  : option string * Bucket :=
  match cs with
  | [] => (None, bk)
  | c :: r =>
      match copy_chunk src dst c bk with
      | (None, bk') => copy_chunks src dst r bk'
      | (Some e, bk') => (Some e, bk')
      end
  end.

(** The result of a call: how its promise settles, the bucket after
    it, and the [listObjectsV2] responses it obtained, in order. *)
Record Out := mkOut { res : js unit; bucket_after : Bucket; listed : list ListResult }.

Definition bucket_msg : string :=
  "S3_BUCKET environment variable is not defined. Please ensure it is set in your environment configuration.".
Definition depth_msg : string :=
  "Maximum recursion depth exceeded while copying S3 folder.".

(** [catch (error) { throw new Error(`Failed to copy folder: ${error.message}`) }] *)
Definition wrap (e : string) : string := "Failed to copy folder: " +:+ e.

(** [.catch(error => { throw new Error(`Failed to list objects in S3
    bucket: ${error.message || "Unknown error"}`) })] *)
Definition list_msg (e : string) : string :=
  "Failed to list objects in S3 bucket: " +:+ (if String.eqb e "" then "Unknown error" else e).

(** [!process.env.S3_BUCKET]: undefined or empty. *)
Definition bucket_missing (S3_BUCKET : option string) : bool :=
  match S3_BUCKET with None => true | Some b => String.eqb b "" end.

Definition inspect {A} (a : A) : {b | a = b} := exist _ a eq_refl.

Equations? copyS3Folder (S3_BUCKET : option string) (sourcePrefix destinationPrefix : string)
  (continuationToken : option nat) (depth maxDepth : nat) (bk : Bucket) : Out
  by wf (S maxDepth - depth)%nat lt :=
copyS3Folder S3_BUCKET src dst tok depth maxDepth bk
  with inspect (bucket_missing S3_BUCKET) => {
  | exist _ true _ => mkOut (Throw bucket_msg) bk []
  | exist _ false _ with inspect (Nat.ltb maxDepth depth) => {
    | exist _ true _ => mkOut (Throw depth_msg) bk []
    | exist _ false H =>
        match listObjectsV2 bk src tok with
        | Throw e => mkOut (Throw (wrap (list_msg e))) bk []
        | Ok lr =>
            match Contents lr with
            | [] => mkOut (Ok tt) bk [lr]
            | _ =>
                match copy_chunks src dst (chunks (Contents lr)) bk with
                | (Some e, bk') => mkOut (Throw (wrap e)) bk' [lr]
                | (None, bk') =>
                    if IsTruncated lr then
                      let o := copyS3Folder S3_BUCKET src dst (NextContinuationToken lr)
                                 (S depth) maxDepth bk' in
                      mkOut (match res o with Ok _ => Ok tt | Throw e => Throw (wrap e) end)
                            (bucket_after o) (lr :: listed o)
                    else mkOut (Ok tt) bk' [lr]
                end
            end
        end } }.
Proof. apply Nat.ltb_ge in H. destruct depth; lia. Qed.

(** [projectHandler]: [copyS3Folder(`base/${language}`, `code/${replId}`)]
    with the default [depth = 0], [maxDepth = 10]. *)
Definition provision (S3_BUCKET : option string) (language replId : string) (bk : Bucket) : Out :=
  copyS3Folder S3_BUCKET ("base/" +:+ language) ("code/" +:+ replId) None 0 10 bk.

(** A response after which the code asks for another page. *)
Definition continues (lr : ListResult) : bool :=
  match Contents lr with [] => false | _ => IsTruncated lr end.

Fixpoint wrapN (n : nat) (e : string) : string :=
  match n with 0 => e | S n' => wrap (wrapN n' e) end.

(** How a call started at [depth] on [bk] can end. *)
Definition copy_outcome (S3_BUCKET : option string) (depth maxDepth : nat) (bk : Bucket)
  (o : Out) : Prop :=
  (length (listed o) <= S maxDepth - depth)%nat /\
  ((bucket_missing S3_BUCKET = true /\ res o = Throw bucket_msg /\ listed o = []) \/
   (res o = Ok tt /\ exists lr, last (listed o) = Some lr /\ continues lr = false) \/
   (res o = Throw (wrapN (S maxDepth - depth) depth_msg) /\
    length (listed o) = (S maxDepth - depth)%nat /\
    Forall (fun lr => continues lr = true) (listed o)) \/
   (exists t e, list_fault bk t = Some e /\
      res o = Throw (wrapN (S (length (listed o))) (list_msg e)) /\
      Forall (fun lr => continues lr = true) (listed o)) \/
   (exists lr k e, In lr (listed o) /\ In k (Contents lr) /\
      (e = "NoSuchKey" \/ copy_fault bk k = Some e) /\
      res o = Throw (wrapN (length (listed o)) e))).

Lemma copyObject_faults (bk bk' : Bucket) (k k' : string) :
  copyObject bk k k' = Ok bk' ->
  list_fault bk' = list_fault bk /\ copy_fault bk' = copy_fault bk.
Proof.
  unfold copyObject. destruct (copy_fault bk k); [discriminate|].
  destruct (assoc_get k (objects bk)); [|discriminate].
  intros H. injection H as <-. split; reflexivity.
Qed.

Lemma copy_chunk_faults (src dst : string) (c : list string) (bk : Bucket) :
  list_fault (snd (copy_chunk src dst c bk)) = list_fault bk /\
  copy_fault (snd (copy_chunk src dst c bk)) = copy_fault bk.
Proof.
  induction c as [|k c IH] in bk |- *; cbn [copy_chunk]; [split; reflexivity|].
  destruct (copyObject bk k (js_replace k src dst)) as [bk'|e] eqn:Hc.
  - destruct (copyObject_faults _ _ _ _ Hc) as [E1 E2].
    rewrite <- E1, <- E2. apply IH.
  - specialize (IH bk). destruct (copy_chunk src dst c bk) as [e' bk'']. exact IH.
Qed.

Lemma copy_chunks_faults (src dst : string) (cs : list (list string)) (bk : Bucket) :
  list_fault (snd (copy_chunks src dst cs bk)) = list_fault bk /\
  copy_fault (snd (copy_chunks src dst cs bk)) = copy_fault bk.
Proof.
  induction cs as [|c cs IH] in bk |- *; cbn [copy_chunks]; [split; reflexivity|].
  pose proof (copy_chunk_faults src dst c bk) as [E1 E2].
  destruct (copy_chunk src dst c bk) as [[e|] bk']; cbn [snd] in *.
  - split; assumption.
  - rewrite <- E1, <- E2. apply IH.
Qed.

(** The error a chunk fails with is that of one of its copies. *)
Lemma copy_chunk_error (src dst : string) (c : list string) (bk : Bucket) :
  fst (copy_chunk src dst c bk) = None \/
  exists k e, In k c /\ (e = "NoSuchKey" \/ copy_fault bk k = Some e) /\
              fst (copy_chunk src dst c bk) = Some e.
Proof.
  induction c as [|k c IH] in bk |- *; cbn [copy_chunk]; [left; reflexivity|].
  destruct (copyObject bk k (js_replace k src dst)) as [bk'|e] eqn:Hc.
  - destruct (copyObject_faults _ _ _ _ Hc) as [_ E2].
    destruct (IH bk') as [H|(k' & e & Hk & He & H)]; [left; exact H|].
    right. exists k', e. split; [right; exact Hk|]. split; [|exact H].
    rewrite <- E2. exact He.
  - specialize (IH bk). destruct (copy_chunk src dst c bk) as [e' bk''] eqn:Hr.
    cbn [fst] in *. right.
    destruct IH as [-> |(k' & e2 & Hk & He & H)].
    + exists k, e. split; [left; reflexivity|]. split; [|reflexivity].
      unfold copyObject in Hc. destruct (copy_fault bk k) as [e0|].
      * injection Hc as ->. right. reflexivity.
      * destruct (assoc_get k (objects bk)); [discriminate|]. injection Hc as <-. left. reflexivity.
    + subst e'. exists k', e2. split; [right; exact Hk|]. split; [exact He|reflexivity].
Qed.

Lemma copy_chunks_error (src dst : string) (cs : list (list string)) (bk : Bucket) :
  fst (copy_chunks src dst cs bk) = None \/
  exists k e, In k (concat cs) /\ (e = "NoSuchKey" \/ copy_fault bk k = Some e) /\
              fst (copy_chunks src dst cs bk) = Some e.
Proof.
  induction cs as [|c cs IH] in bk |- *; cbn [copy_chunks]; [left; reflexivity|].
  pose proof (copy_chunk_error src dst c bk) as Hc.
  pose proof (copy_chunk_faults src dst c bk) as [_ E2].
  destruct (copy_chunk src dst c bk) as [[e|] bk']; cbn [fst snd] in *.
  - destruct Hc as [Hc|(k & e' & Hk & He & Hc)]; [discriminate|].
    injection Hc as Hee. subst e.
    right. exists k, e'. split; [apply in_or_app; left; exact Hk|]. split; [exact He|reflexivity].
  - destruct (IH bk') as [H|(k & e & Hk & He & H)]; [left; exact H|].
    right. exists k, e. split; [apply in_or_app; right; exact Hk|].
    split; [rewrite <- E2; exact He|exact H].
Qed.

Lemma chunks_go_concat {A} (f : nat) (l : list A) :
  (length l <= f)%nat -> concat (chunks_go f l) = l /\
  Forall (fun c => c <> [] /\ (length c <= maxConcurrency)%nat) (chunks_go f l).
Proof.
  revert l. induction f as [|f IH]; intros l Hl.
  - destruct l; [split; [reflexivity|constructor]|simpl in Hl; lia].
  - destruct l as [|x l]; [split; [reflexivity|constructor]|].
    cbn [chunks_go]. destruct (IH (skipn maxConcurrency (x :: l))) as [Hc Hf].
    { rewrite length_skipn. simpl in *. lia. }
    cbn [concat]. rewrite Hc, firstn_skipn. split; [reflexivity|].
    constructor; [|exact Hf]. split.
    + unfold maxConcurrency. simpl. discriminate.
    + rewrite length_firstn. lia.
Qed.

Lemma chunks_concat {A} (l : list A) : concat (chunks l) = l.
Proof. apply chunks_go_concat. lia. Qed.

Lemma copyS3Folder_outcome (S3_BUCKET : option string) (src dst : string)
  (tok : option nat) (depth maxDepth : nat) (bk : Bucket) :
  copy_outcome S3_BUCKET depth maxDepth bk
    (copyS3Folder S3_BUCKET src dst tok depth maxDepth bk).
Proof.
  funelim (copyS3Folder S3_BUCKET src dst tok depth maxDepth bk);
    unfold copy_outcome; cbn [listed res length].
  - split; [lia|]. left. auto.
  - match goal with Hd : Nat.ltb _ _ = true |- _ =>
      pose proof (proj1 (Nat.ltb_lt _ _) Hd) end.
    replace (S maxDepth - depth)%nat with 0%nat by lia.
    split; [lia|]. right; right; left. split; [reflexivity|]. split; [reflexivity|constructor].
  - pose proof (proj1 (Nat.ltb_ge _ _) H) as Hle.
    destruct (listObjectsV2 bk src tok) as [lr|e0] eqn:Hl.
    2:{ cbn. split; [lia|]. right; right; right; left.
        unfold listObjectsV2 in Hl. destruct (list_fault bk tok) as [e1|] eqn:Hf; [|discriminate].
        injection Hl as Hee. subst e0. exists tok, e1. split; [exact Hf|]. split; [reflexivity|constructor]. }
    destruct (Contents lr) as [|k ks] eqn:Hc.
    + cbn. split; [lia|]. right; left. split; [reflexivity|].
      exists lr. split; [reflexivity|]. unfold continues. rewrite Hc. reflexivity.
    + pose proof (copy_chunks_error src dst (chunks (k :: ks)) bk) as Herr.
      pose proof (copy_chunks_faults src dst (chunks (k :: ks)) bk) as [Ef1 Ef2].
      rewrite chunks_concat in Herr.
      destruct (copy_chunks src dst (chunks (k :: ks)) bk) as [[e'|] bk'];
        cbn [fst snd] in Herr, Ef1, Ef2.
      * destruct Herr as [Herr|(k' & e2 & Hk & He & Herr)]; [discriminate|].
        injection Herr as Hee. subst e'.
        cbn. split; [lia|]. right; right; right; right.
        exists lr, k', e2. split; [left; reflexivity|]. rewrite Hc.
        split; [exact Hk|]. split; [exact He|reflexivity].
      * destruct (IsTruncated lr) eqn:Ht.
        -- specialize (H0 lr "" [] None bk').
           set (o := copyS3Folder S3_BUCKET src dst (NextContinuationToken lr)
                       (S depth) maxDepth bk') in *.
           destruct H0 as [Hlen Hcases]. cbn [listed res length].
           split; [lia|].
           assert (Hlr : continues lr = true) by (unfold continues; rewrite Hc; exact Ht).
           destruct Hcases as [(Hb & _)|[(Hok & lr' & Hlast & Hcont)|[(Hres & Hlen' & Hall)|
                               [(t & e2 & Hf & Hres & Hall)|(lr' & k' & e2 & Hlr' & Hk & He & Hres)]]]].
           ++ congruence.
           ++ right; left. rewrite Hok. split; [reflexivity|].
              exists lr'. split; [|exact Hcont].
              destruct (listed o) as [|x l]; [discriminate|].
              rewrite last_cons_cons. exact Hlast.
           ++ right; right; left. rewrite Hres. split.
              ** replace (S maxDepth - depth)%nat with (S (S maxDepth - S depth)) by lia.
                 reflexivity.
              ** split; [lia|]. constructor; assumption.
           ++ right; right; right; left. exists t, e2.
              split; [rewrite <- Ef1; exact Hf|]. rewrite Hres.
              split; [reflexivity|]. constructor; assumption.
           ++ right; right; right; right. exists lr', k', e2.
              split; [right; exact Hlr'|]. split; [exact Hk|].
              split; [rewrite <- Ef2; exact He|]. rewrite Hres. reflexivity.
        -- cbn. split; [lia|]. right; left. split; [reflexivity|].
           exists lr. split; [reflexivity|]. unfold continues. rewrite Hc. exact Ht.
Qed.

Lemma get_substitution_plain m b a dst :
  no_dollar dst = true -> get_substitution m b a dst = dst.
Proof.
  induction dst as [|c r IH]; intros H; [reflexivity|].
  cbn [no_dollar] in H. apply andb_prop in H as [Hc Hr].
  specialize (IH Hr).
  destruct c as [[] [] [] [] [] [] [] []]; cbn in Hc; try discriminate;
    cbn [get_substitution]; rewrite IH; reflexivity.
Qed.

Lemma prefix_app (src suf : string) : String.prefix src (src +:+ suf) = true.
Proof.
  induction src as [|c s IH]; [destruct suf; reflexivity|].
  change (String c s +:+ suf) with (String c (s +:+ suf)). cbn [String.prefix].
  destruct (ascii_dec c c); [exact IH|contradiction].
Qed.

Lemma index_app (src suf : string) : String.index 0 src (src +:+ suf) = Some 0%nat.
Proof.
  pose proof (prefix_app src suf) as H.
  destruct (src +:+ suf) as [|b s] eqn:E.
  - destruct src; [reflexivity|discriminate].
  - cbn [String.index]. rewrite H. reflexivity.
Qed.

Lemma substring_all (s : string) (m : nat) :
  (String.length s <= m)%nat -> String.substring 0 m s = s.
Proof.
  revert m. induction s as [|c s IH]; intros [|m] H; cbn in *; try reflexivity; [lia|].
  rewrite IH by lia. reflexivity.
Qed.

Lemma substring_app (src suf : string) (m : nat) :
  String.substring (String.length src) m (src +:+ suf) = String.substring 0 m suf.
Proof.
  induction src as [|c s IH]; [reflexivity|].
  change (String c s +:+ suf) with (String c (s +:+ suf)). exact IH.
Qed.

Lemma str_length_app' (a b : string) :
  String.length (a +:+ b) = (String.length a + String.length b)%nat.
Proof.
  induction a as [|x a IH]; [reflexivity|].
  change (S (String.length (a +:+ b)) = S (String.length a + String.length b))%nat. lia.
Qed.

(** With a destination prefix free of [$], the key rewrite is the
    intended one: the source prefix is swapped for the destination
    prefix and the suffix is kept. *)
Lemma js_replace_plain_prefix (src suf dst : string) :
  no_dollar dst = true -> js_replace (src +:+ suf) src dst = dst +:+ suf.
Proof.
  intros H. unfold js_replace. rewrite index_app.
  rewrite get_substitution_plain by exact H. cbn [Nat.add].
  rewrite substring_app, (substring_all suf) by (rewrite str_length_app'; lia).
  destruct (src +:+ suf); reflexivity.
Qed.

(** C7. A call with the default [depth = 0] always settles, after at
    most [maxDepth + 1] pages obtained from [listObjectsV2], in one of
    five ways: a missing bucket setting; success, only once the last page
    obtained asks for no further page; the depth guard's error, reported
    through every level, after [maxDepth + 1] pages that all asked for
    more; a listing error, reported through every level; or the error of
    the copy of a listed key. It never succeeds while the last page
    obtained still asks for more. *)
Theorem copyS3Folder_bounded_pagination (S3_BUCKET : option string) (src dst : string)
  (maxDepth : nat) (bk : Bucket) :
  let o := copyS3Folder S3_BUCKET src dst None 0 maxDepth bk in
  (length (listed o) <= S maxDepth)%nat /\
  ((bucket_missing S3_BUCKET = true /\ res o = Throw bucket_msg /\ listed o = []) \/
   (res o = Ok tt /\ exists lr, last (listed o) = Some lr /\ continues lr = false) \/
   (res o = Throw (wrapN (S maxDepth) depth_msg) /\
    length (listed o) = S maxDepth /\
    Forall (fun lr => continues lr = true) (listed o)) \/
   (exists t e, list_fault bk t = Some e /\
      res o = Throw (wrapN (S (length (listed o))) (list_msg e)) /\
      Forall (fun lr => continues lr = true) (listed o)) \/
   (exists lr k e, In lr (listed o) /\ In k (Contents lr) /\
      (e = "NoSuchKey" \/ copy_fault bk k = Some e) /\
      res o = Throw (wrapN (length (listed o)) e))).
Proof. exact (copyS3Folder_outcome S3_BUCKET src dst None 0 maxDepth bk). Qed.

(** Twelve template objects listed one per page exceed the default
    ceiling: the eleventh page still asks for more, and the project
    handler receives the depth error. *)
Example provision_ceiling_reported :
  let bk := mkBucket (map (fun k => ("base/node-js/f" +:+ pretty (N.of_nat k), "x"))
                          (seq 0 12)) 1 in
  let o := provision (Some "repl-bucket") "node-js" "w1" bk in
  res o = Throw (wrapN 11 depth_msg) /\ length (listed o) = 11%nat.
Proof. vm_compute. split; reflexivity. Qed.

(** C8 (code defect). [object.Key.replace(sourcePrefix, destinationPrefix)]
    reads [$&] in the destination prefix as "the matched text": for
    [replId = "w$&"] the template object lands under
    [code/wbase/node-js/] instead of [code/w$&/]. Re-running the copy
    changes nothing. *)
Theorem provision_dollar_pattern_key :
  let bk := mkBucket [("base/node-js/index.js", "console.log(1)")] 1000 in
  let o := provision (Some "repl-bucket") "node-js" "w$&" bk in
  res o = Ok tt /\
  assoc_get "code/wbase/node-js/index.js" (objects (bucket_after o)) = Some "console.log(1)" /\
  assoc_get "code/w$&/index.js" (objects (bucket_after o)) = None /\
  bucket_after (provision (Some "repl-bucket") "node-js" "w$&" (bucket_after o)) =
    bucket_after o.
Proof. vm_compute. repeat split; reflexivity. Qed.

End S3Copy.

(* ================================================================= *)
(** ** file-manager.tsx: [findFileByName], [buildFileTree] *)

Module FileManager.

Import Merge.
Open Scope string_scope.
Open Scope list_scope.

(** [enum Type { FILE, DIRECTORY, DUMMY }]. *)
Inductive FType := FILE | DIRECTORY | DUMMY.

(** [File] (the [CommonProps] fields). *)
Record File := mkFile {
  f_id : string; f_type : FType; f_name : string; f_content : option string;
  f_path : string; f_parentId : option string; f_depth : nat
}.

(** [Directory]: [CommonProps] with [files: File[]] and [dirs: Directory[]]. *)
#[warnings="-register-all"]
Inductive Directory := mkDirectory {
  d_id : string; d_name : string; d_path : string; d_parentId : option string;
  d_depth : nat; d_files : list File; d_dirs : list Directory
}.

(** The inner [findFile(rootDir, filename)]: [targetFile] is the
    variable it assigns. [forEach] visits every file (the [return] only
    leaves the callback), then recurses into every subdirectory. *)
Fixpoint findFile (rootDir : Directory) (filename : string) (targetFile : option File)
  : option File :=
  let t := fold_left (fun t file => if String.eqb (f_name file) filename then Some file else t)
                     (d_files rootDir) targetFile in
  (fix each (dirs : list Directory) (t : option File) : option File :=
     match dirs with
     | [] => t
     | dir :: rest => each rest (findFile dir filename t)
     end) (d_dirs rootDir) t.

Definition findFileByName (rootDir : Directory) (filename : string) : option File :=
  findFile rootDir filename None.

(** Traversal order: a directory's files, then each subdirectory in turn. *)
Fixpoint all_files (d : Directory) : list File :=
  d_files d ++
  (fix each (dirs : list Directory) : list File :=
     match dirs with [] => [] | dir :: rest => all_files dir ++ each rest end) (d_dirs d).

(** Induction over directories with a hypothesis for every subdirectory. *)
Definition Directory_ind' (P : Directory -> Prop)
  (H : forall i n p par dep fs ds, Forall P ds -> P (mkDirectory i n p par dep fs ds)) :
  forall d, P d :=
  fix F d :=
    match d with
    | mkDirectory i n p par dep fs ds =>
        H i n p par dep fs ds
          ((fix G (ds : list Directory) : Forall P ds :=
              match ds with
              | [] => @List.Forall_nil _ P
              | d' :: r => @List.Forall_cons _ P d' r (F d') (G r)
              end) ds)
    end.

(** ['a/b'.split('/')]. *)
Fixpoint split_slash (s : string) : list string :=
  match s with
  | EmptyString => [""]
  | String c r =>
      let rest := split_slash r in
      if Ascii.eqb c "/"%char then "" :: rest
      else match rest with
           | [] => [String c ""]
           | h :: t => String c h :: t
           end
  end.

(** [segments.join('/')]. *)
Fixpoint join_slash (l : list string) : string :=
  match l with
  | [] => ""
  | [x] => x
  | x :: r => x +:+ "/" +:+ join_slash r
  end.

(** [item.path.split("/").slice(0, -1).join("/")]. *)
Definition parent_path (p : string) : string := join_slash (removelast (split_slash p)).

(** [item.path.split("/").length === 2 ? "0"
       : dirs.find(x => x.path === parentPath)?.path] *)
Definition parentId_of (dirs : list RemoteFile) (p : string) : option string :=
  if Nat.eqb (length (split_slash p)) 2 then Some "0"
  else option_map path (find (fun x => String.eqb (path x) (parent_path p)) dirs).

(** An object of the cache: its kind, name, path and parent id, and
    for a [Directory] the keys of the objects pushed onto its [dirs]
    and [files] arrays (a [File] object has no such arrays). *)
Record Node := mkNode {
  n_type : FType; n_name : string; n_path : string; n_parentId : option string;
  n_files : list string; n_dirs : list string
}.

Abbreviation Cache := (list (string * Node)).

(** [Map.prototype.set]: a new key goes last, an existing key keeps its
    place and gets the new value. *)
Fixpoint cache_set (k : string) (v : Node) (c : Cache) : Cache :=
  match c with
  | [] => [(k, v)]
  | (k', v') :: r => if String.eqb k k' then (k, v) :: r else (k', v') :: cache_set k v r
  end.

Fixpoint cache_get (k : string) (c : Cache) : option Node :=
  match c with
  | [] => None
  | (k', v) :: r => if String.eqb k k' then Some v else cache_get k r
  end.

(** The root's [files] and [dirs] arrays, as keys of the cache. *)
Record Root := mkRoot { root_files : list string; root_dirs : list string }.

Definition dir_node (dirs : list RemoteFile) (item : RemoteFile) : Node :=
  mkNode DIRECTORY (name item) (path item) (parentId_of dirs (path item)) [] [].

Definition file_node (dirs : list RemoteFile) (item : RemoteFile) : Node :=
  mkNode FILE (name item) (path item) (parentId_of dirs (path item)) [] [].

(** [const dirs = data.filter(x => x.type === "dir")] *)
Definition dirs_of (data : list RemoteFile) : list RemoteFile :=
  List.filter (fun x => match rtype_of x with RDir => true | RFile => false end) data.

(** [const files = data.filter(x => x.type === "file")] *)
Definition files_of (data : list RemoteFile) : list RemoteFile :=
  List.filter (fun x => match rtype_of x with RFile => true | RDir => false end) data.

(** [dirs.forEach(... cache.set(dir.id, dir))] then
    [files.forEach(... cache.set(file.id, file))]. *)
Definition build_cache (data : list RemoteFile) : Cache :=
  let dirs := dirs_of data in
  let c := fold_left (fun c item => cache_set (path item) (dir_node dirs item) c) dirs [] in
  fold_left (fun c item => cache_set (path item) (file_node dirs item) c) (files_of data) c.

Definition push_child (child : string) (ty : FType) (n : Node) : Node :=
  match ty with
  | DIRECTORY => mkNode (n_type n) (n_name n) (n_path n) (n_parentId n) (n_files n) (n_dirs n ++ [child])
  | _ => mkNode (n_type n) (n_name n) (n_path n) (n_parentId n) (n_files n ++ [child]) (n_dirs n)
  end.

(** The [dirs] / [files] array of a directory object, by the kind of
    the child, and the root's. *)
Definition child_list (ty : FType) (n : Node) : list string :=
  match ty with DIRECTORY => n_dirs n | _ => n_files n end.

Definition root_list (ty : FType) (root : Root) : list string :=
  match ty with DIRECTORY => root_dirs root | _ => root_files root end.

Definition type_error : string := "TypeError: Cannot read properties of undefined".

(** One round of [cache.forEach((value) => { ... })]. *)
Definition link_one (st : js (Root * Cache)) (entry : string * Node) : js (Root * Cache) :=
  match st with
  | Throw e => Throw e
  | Ok (root, c) =>
      let '(k, value) := entry in
      if decide (n_parentId value = Some "0") then
        match n_type value with
        | DIRECTORY => Ok (mkRoot (root_files root) (root_dirs root ++ [k]), c)
        | _ => Ok (mkRoot (root_files root ++ [k]) (root_dirs root), c)
        end
      else
        (* const parentDir = cache.get(value.parentId as string) as Directory *)
        match n_parentId value with
        | None => Throw type_error
        | Some pid =>
            match cache_get pid c with
            | None => Throw type_error
            | Some parentDir =>
                match n_type parentDir with
                | DIRECTORY => Ok (root, cache_set pid (push_child k (n_type value) parentDir) c)
                | _ => Throw type_error
                end
            end
        end
  end.

Definition link (c : Cache) : js (Root * Cache) :=
  fold_left link_one c (Ok (mkRoot [] [], c)).

(** [getDepth(dir, curDepth)], returning the [depth] assigned to each
    key (it writes nothing else). [fuel] bounds the recursion depth: a
    directory reachable from itself would recurse until the stack
    overflows. *)
Fixpoint getDepth (fuel : nat) (c : Cache) (files dirs : list string) (curDepth : nat)
  : js (list (string * nat)) :=
  match fuel with
  | 0 => Throw "RangeError: Maximum call stack size exceeded"
  | S f =>
      let fs := map (fun k => (k, S curDepth)) files in
      (fix each (ds : list string) (acc : list (string * nat)) : js (list (string * nat)) :=
         match ds with
         | [] => Ok acc
         | d :: rest =>
             match cache_get d c with
             | Some n =>
                 match n_type n with
                 | DIRECTORY =>
                     match getDepth f c (n_files n) (n_dirs n) (S curDepth) with
                     | Ok sub => each rest (acc ++ [(d, S curDepth)] ++ sub)
                     | Throw e => Throw e
                     end
                 | _ => Throw type_error
                 end
             | None => Throw type_error
             end
         end) dirs fs
  end.

Definition max_key_length (c : Cache) : nat :=
  fold_right (fun kv m => Nat.max (String.length (fst kv)) m) 0 c.

(** [buildFileTree(data)]: the root, the objects of the cache after
    linking, and the depths assigned. *)
Definition buildFileTree (data : list RemoteFile) : js (Root * Cache * list (string * nat)) :=
  let c := build_cache data in
  match link c with
  | Throw e => Throw e
  | Ok (root, c') =>
      match getDepth (S (max_key_length c')) c' (root_files root) (root_dirs root) 0 with
      | Throw e => Throw e
      | Ok ds => Ok (root, c', ds)
      end
  end.

Definition lastor {A} (l : list A) (t : option A) : option A :=
  match last l with Some f => Some f | None => t end.

Definition ftype_of (e : RemoteFile) : FType :=
  match rtype_of e with RDir => DIRECTORY | RFile => FILE end.

Definition shape (c : Cache) : list (string * FType * option string) :=
  map (fun kv => (kv.1, n_type kv.2, n_parentId kv.2)) c.

(** An entry of the cache has been linked: pushed onto the root, or onto
    the directory object its [parentId] names. *)
Definition attached (root : Root) (c : Cache) (kv : string * Node) : Prop :=
  if decide (n_parentId kv.2 = Some "0") then In kv.1 (root_list (n_type kv.2) root)
  else exists pid n, n_parentId kv.2 = Some pid /\ cache_get pid c = Some n /\
                     n_type n = DIRECTORY /\ In kv.1 (child_list (n_type kv.2) n).

Definition grows (root : Root) (c : Cache) (root' : Root) (c' : Cache) : Prop :=
  (forall ty x, In x (root_list ty root) -> In x (root_list ty root')) /\
  (forall P n, cache_get P c = Some n -> exists n', cache_get P c' = Some n' /\
     n_type n' = n_type n /\ forall ty x, In x (child_list ty n) -> In x (child_list ty n')).

Definition link_inv (E done : Cache) (root : Root) (c : Cache) : Prop :=
  shape c = shape E /\
  (forall k, In k (root_dirs root) -> exists v, In (k, v) E /\ n_type v = DIRECTORY) /\
  (forall P n k, cache_get P c = Some n -> In k (n_dirs n) ->
     exists v, In (k, v) E /\ n_type v = DIRECTORY /\ n_parentId v = Some P /\ P <> "0") /\
  Forall (attached root c) done.

Definition ok_entry (E : Cache) (kv : string * Node) : Prop :=
  n_parentId kv.2 = Some "0" \/
  exists pid n, n_parentId kv.2 = Some pid /\ cache_get pid E = Some n /\ n_type n = DIRECTORY.

(** The precondition stated for [buildFileTree]: every entry whose
    path has three or more segments has a directory entry at its parent
    path. *)
Definition parent_dirs_present (data : list RemoteFile) : Prop :=
  Forall (fun e => 3 <= length (split_slash (path e)) ->
            exists d, In d data /\ rtype_of d = RDir /\ path d = parent_path (path e)) data.

(** A listing as [fetchDir] returns it: a directory, a file in it, and a
    file at the top level. *)
Definition sample_tree : list RemoteFile :=
  [mkRemote RDir "a" "/a"; mkRemote RFile "x" "/a/x"; mkRemote RFile "y" "/y"].

(** A file whose parent directory is not listed. *)
Definition orphan_entry : list RemoteFile := [mkRemote RFile "x" "/a/x"].

(** A single entry whose path has no slash. *)
Definition flat_entry : list RemoteFile := [mkRemote RFile "x.txt" "x.txt"].

(** A directory and a file sharing the path "/a", with a child "/a/x". *)
Definition dir_file_same_path : list RemoteFile :=
  [mkRemote RDir "a" "/a"; mkRemote RFile "a" "/a"; mkRemote RFile "x" "/a/x"].

(** Two files named "index.js": one at the top level, one under "/src". *)
Definition two_index_tree : Directory :=
  mkDirectory "root" "root" "" None 0
    [mkFile "/index.js" FILE "index.js" None "/index.js" (Some "0") 1]
    [mkDirectory "/src" "src" "/src" (Some "0") 1
       [mkFile "/src/index.js" FILE "index.js" None "/src/index.js" (Some "/src") 2] []].

Lemma lastor_cons {A} (a : A) l t : lastor (a :: l) t = lastor l (Some a).
Proof.
  unfold lastor. destruct l as [|b l]; [reflexivity|]. cbn [last].
  destruct (last (b :: l)) eqn:E; [reflexivity|]. apply last_None in E. discriminate.
Qed.

Lemma lastor_app {A} (l1 l2 : list A) t : lastor (l1 ++ l2) t = lastor l2 (lastor l1 t).
Proof.
  revert t. induction l1 as [|a l1 IH]; intros t; [reflexivity|].
  rewrite <-app_comm_cons, !lastor_cons. apply IH.
Qed.

Lemma findFile_files n fs t :
  fold_left (fun t file => if String.eqb (f_name file) n then Some file else t) fs t
  = lastor (List.filter (fun f => String.eqb (f_name f) n) fs) t.
Proof.
  revert t. induction fs as [|f fs IH]; intros t; [reflexivity|].
  cbn. destruct (String.eqb (f_name f) n); rewrite IH; [rewrite lastor_cons|]; reflexivity.
Qed.

Lemma findFile_lastor n d : forall t,
  findFile d n t = lastor (List.filter (fun f => String.eqb (f_name f) n) (all_files d)) t.
Proof.
  induction d as [i nm p par dep fs ds Hds] using Directory_ind'. intros t.
  cbn [findFile all_files d_files d_dirs]. rewrite findFile_files, List.filter_app, lastor_app.
  generalize (lastor (List.filter (fun f => String.eqb (f_name f) n) fs) t) as t'.
  induction Hds as [|d ds Hd Hds IH]; intros t'; [reflexivity|].
  rewrite List.filter_app, lastor_app, <-Hd. apply IH.
Qed.

(** C9: [findFileByName] does not stop at the first match: it returns
    the last file with the searched name in traversal order (a
    directory's files in order, then each subdirectory recursively), or
    [undefined] when there is none. *)
Theorem findFileByName_last_match (rootDir : Directory) (filename : string) :
  findFileByName rootDir filename
  = last (List.filter (fun f => String.eqb (f_name f) filename) (all_files rootDir)).
Proof.
  unfold findFileByName. rewrite findFile_lastor. unfold lastor.
  destruct (last _); reflexivity.
Qed.

Lemma str_app_cons x (a b : string) : String x a +:+ b = String x (a +:+ b).
Proof. reflexivity. Qed.

Lemma str_app_assoc (a b c : string) : a +:+ (b +:+ c) = (a +:+ b) +:+ c.
Proof. induction a as [|x a IH]; [reflexivity|]. rewrite !str_app_cons, IH. reflexivity. Qed.

Lemma str_length_app (a b : string) : String.length (a +:+ b) = String.length a + String.length b.
Proof. induction a as [|x a IH]; [reflexivity|]. rewrite str_app_cons. cbn [String.length]. lia. Qed.

Lemma split_slash_nil s : split_slash s <> [].
Proof.
  induction s as [|c r IH]; cbn; [discriminate|].
  destruct (Ascii.eqb c "/"); [discriminate|]. destruct (split_slash r); [contradiction|discriminate].
Qed.

Lemma join_slash_cons_string c h t :
  join_slash (String c h :: t) = String c (join_slash (h :: t)).
Proof. destruct t; reflexivity. Qed.

Lemma join_slash_cons2 x y r : join_slash (x :: y :: r) = x +:+ "/" +:+ join_slash (y :: r).
Proof. reflexivity. Qed.

Lemma join_split s : join_slash (split_slash s) = s.
Proof.
  induction s as [|c r IH]; [reflexivity|]. cbn [split_slash].
  destruct (Ascii.eqb c "/") eqn:E.
  - apply Ascii.eqb_eq in E. subst c.
    destruct (split_slash r) as [|h t] eqn:Hs; [exfalso; by apply (split_slash_nil r)|].
    rewrite join_slash_cons2, IH. reflexivity.
  - destruct (split_slash r) as [|h t] eqn:Hs; [exfalso; by apply (split_slash_nil r)|].
    rewrite join_slash_cons_string, IH. reflexivity.
Qed.

Lemma join_slash_snoc l x : l <> [] -> join_slash (l ++ [x]) = join_slash l +:+ "/" +:+ x.
Proof.
  induction l as [|a l IH]; intros Hl; [contradiction|].
  destruct l as [|b l]; [reflexivity|].
  rewrite <-!app_comm_cons, join_slash_cons2, app_comm_cons, IH by discriminate.
  rewrite join_slash_cons2, <-!str_app_assoc. reflexivity.
Qed.

Lemma parent_path_shorter p :
  2 <= length (split_slash p) -> String.length (parent_path p) < String.length p.
Proof.
  intros H. unfold parent_path. rewrite <-(join_split p) at 2.
  destruct (exists_last (split_slash_nil p)) as [l [x Hlx]]. rewrite Hlx in H |- *.
  rewrite removelast_last. rewrite length_app in H. cbn in H.
  rewrite join_slash_snoc by (destruct l; cbn in H; [lia|discriminate]).
  rewrite !str_length_app. cbn. lia.
Qed.

Lemma join_slash_two x y r : join_slash (x :: y :: r) <> "0".
Proof.
  rewrite join_slash_cons2. destruct x as [|c x]; cbn; [discriminate|].
  intros H. injection H as _ H. destruct x; discriminate.
Qed.

Lemma parent_path_not_root p : 3 <= length (split_slash p) -> parent_path p <> "0".
Proof.
  intros H. unfold parent_path.
  destruct (exists_last (split_slash_nil p)) as [l [x Hlx]]. rewrite Hlx in H |- *.
  rewrite removelast_last. rewrite length_app in H. cbn in H.
  destruct l as [|a [|b l]]; cbn in H; [lia|lia|]. apply join_slash_two.
Qed.

Lemma split_two_nonempty p : 2 <= length (split_slash p) -> p <> "".
Proof. intros H ->. cbn in H. lia. Qed.

Lemma cache_get_set k pid v c :
  cache_get k (cache_set pid v c) = if String.eqb k pid then Some v else cache_get k c.
Proof.
  induction c as [|[k' v'] c IH]; cbn.
  - destruct (String.eqb k pid); reflexivity.
  - destruct (String.eqb_spec pid k') as [->|Hne]; cbn.
    + destruct (String.eqb k k'); reflexivity.
    + rewrite IH. destruct (String.eqb_spec k pid), (String.eqb_spec k k'); congruence.
Qed.

Lemma cache_get_In k v c : cache_get k c = Some v -> In (k, v) c.
Proof.
  induction c as [|[k' v'] c IH]; cbn; [discriminate|].
  destruct (String.eqb_spec k k') as [->|]; [intros [= ->]; left; reflexivity|].
  intros H; right; auto.
Qed.

Lemma cache_get_nodup k v c : NoDup (map fst c) -> In (k, v) c -> cache_get k c = Some v.
Proof.
  induction c as [|[k' v'] c IH]; cbn; [intros _ []|].
  intros Hnd Hin. apply NoDup_cons in Hnd as [Hk Hnd].
  destruct Hin as [[= -> ->]|Hin]; [by rewrite String.eqb_refl|].
  destruct (String.eqb_spec k k') as [->|]; [|auto].
  exfalso. apply Hk, list_elem_of_In, in_map_iff. exists (k', v). auto.
Qed.

Lemma cache_set_fresh k v c : ~ In k (map fst c) -> cache_set k v c = c ++ [(k, v)].
Proof.
  induction c as [|[k' v'] c IH]; cbn; [reflexivity|].
  intros Hk. destruct (String.eqb_spec k k') as [->|]; [exfalso; auto|].
  rewrite IH; auto.
Qed.

Lemma fold_set_fresh (g : RemoteFile -> Node) l c0 :
  NoDup (map fst c0 ++ map path l) ->
  fold_left (fun c item => cache_set (path item) (g item) c) l c0
  = c0 ++ map (fun x => (path x, g x)) l.
Proof.
  revert c0. induction l as [|a l IH]; intros c0 Hnd; cbn; [by rewrite app_nil_r|].
  rewrite cache_set_fresh.
  - rewrite IH, <-app_assoc; [reflexivity|].
    rewrite map_app, <-app_assoc. exact Hnd.
  - intros Hin. apply NoDup_app in Hnd as (_ & Hd & _).
    apply (Hd (path a)); [by apply list_elem_of_In|]. cbn. apply list_elem_of_here.
Qed.

Lemma nodup_split data :
  NoDup (map path data) -> NoDup (map path (dirs_of data) ++ map path (files_of data)).
Proof.
  unfold dirs_of, files_of.
  induction data as [|a l IH]; cbn; [constructor|].
  intros Hnd. apply NoDup_cons in Hnd as [Ha Hnd].
  assert (Hsub : forall b, path a ∉ map path (List.filter b l)).
  { intros b Hin. apply Ha. apply list_elem_of_In in Hin. apply list_elem_of_In.
    apply in_map_iff in Hin as (x & Hx & Hxin). apply List.filter_In in Hxin as [Hxin _].
    apply in_map_iff. eauto. }
  destruct (rtype_of a); cbn.
  - rewrite <-Permutation_middle. apply NoDup_cons. split; [|auto].
    rewrite elem_of_app. intros [H|H]; eapply Hsub; eauto.
  - apply NoDup_cons. split; [|auto].
    rewrite elem_of_app. intros [H|H]; eapply Hsub; eauto.
Qed.

Lemma build_cache_eq data :
  NoDup (map path data) ->
  build_cache data =
    map (fun x => (path x, dir_node (dirs_of data) x)) (dirs_of data)
    ++ map (fun x => (path x, file_node (dirs_of data) x)) (files_of data).
Proof.
  intros Hnd. pose proof (nodup_split data Hnd) as H2.
  unfold build_cache. rewrite (fold_set_fresh _ (dirs_of data) []) by (apply NoDup_app in H2 as (H2 & _); exact H2).
  cbn. rewrite fold_set_fresh; [reflexivity|].
  cbn. rewrite map_map. cbn. exact H2.
Qed.

Lemma cache_get_shape c1 c2 k n1 :
  shape c1 = shape c2 -> cache_get k c1 = Some n1 ->
  exists n2, cache_get k c2 = Some n2 /\ n_type n2 = n_type n1 /\ n_parentId n2 = n_parentId n1.
Proof.
  revert c2. induction c1 as [|[k1 v1] c1 IH]; intros [|[k2 v2] c2] Hs; cbn; try discriminate.
  injection Hs as -> Ht Hp Hs. destruct (String.eqb k k2).
  - intros [= <-]. eauto.
  - eauto.
Qed.

Lemma shape_set k n n' c :
  cache_get k c = Some n -> n_type n' = n_type n -> n_parentId n' = n_parentId n ->
  shape (cache_set k n' c) = shape c.
Proof.
  unfold shape. induction c as [|[k1 v1] c IH]; cbn; [discriminate|].
  destruct (String.eqb_spec k k1) as [->|]; cbn.
  - intros [= ->] Ht Hp. by rewrite Ht, Hp.
  - intros H Ht Hp. by rewrite IH.
Qed.

Lemma push_child_type k ty n : n_type (push_child k ty n) = n_type n.
Proof. by destruct ty. Qed.

Lemma push_child_parentId k ty n : n_parentId (push_child k ty n) = n_parentId n.
Proof. by destruct ty. Qed.

Lemma push_child_grows k ty ty' n x :
  In x (child_list ty' n) -> In x (child_list ty' (push_child k ty n)).
Proof. destruct ty, ty'; cbn; rewrite ?in_app_iff; auto. Qed.

Lemma push_child_new k ty n : In k (child_list ty (push_child k ty n)).
Proof. destruct ty; cbn; rewrite in_app_iff; cbn; auto. Qed.

Lemma push_child_dirs k ty n x :
  In x (n_dirs (push_child k ty n)) -> In x (n_dirs n) \/ (x = k /\ ty = DIRECTORY).
Proof. destruct ty; cbn; rewrite ?in_app_iff; cbn; intuition. Qed.

(** An entry of the cache has been linked: pushed onto the root, or onto
    the directory object its [parentId] names. *)

Lemma attached_grows root c root' c' kv :
  grows root c root' c' -> attached root c kv -> attached root' c' kv.
Proof.
  intros [Hr Hc]. unfold attached. case_decide; [auto|].
  intros (pid & n & Hp & Hn & Ht & Hin). destruct (Hc _ _ Hn) as (n' & Hn' & Ht' & Hsub).
  exists pid, n'. rewrite Ht'. auto.
Qed.

Section Link.

Variable E : Cache.

Lemma link_one_ok done root c k v :
  In (k, v) E -> ok_entry E (k, v) -> link_inv E done root c ->
  exists root' c', link_one (Ok (root, c)) (k, v) = Ok (root', c') /\
                   link_inv E (done ++ [(k, v)]) root' c'.
Proof.
  intros HkE Hok (Hs & Hroot & Hdirs & Hdone). unfold ok_entry in Hok. cbn in Hok. unfold link_one.
  case_decide as H0.
  - assert (Hg : forall root', (forall ty x, In x (root_list ty root) -> In x (root_list ty root')) ->
              In k (root_list (n_type v) root') ->
              (forall x, In x (root_dirs root') -> In x (root_dirs root) \/ (x = k /\ n_type v = DIRECTORY)) ->
              link_inv E (done ++ [(k, v)]) root' c).
    { intros root' Hr Hk Hd. split; [exact Hs|]. split; [|split; [exact Hdirs|]].
      - intros x Hx. destruct (Hd x Hx) as [Hx'|[-> Ht]]; eauto.
      - apply Forall_app. split.
        + eapply Forall_impl; [exact Hdone|]. intros kv. apply attached_grows.
          split; [exact Hr|]. intros P n Hn. exists n. auto.
        + constructor; [|constructor]. unfold attached. cbn. by case_decide. }
    destruct (n_type v) eqn:Ht; eexists _, _; (split; [reflexivity|]); apply Hg.
    all: try (intros [] x; cbn; rewrite ?in_app_iff; tauto).
    all: try (cbn; rewrite in_app_iff; cbn; tauto).
    all: intros x Hx; cbn in Hx; rewrite ?in_app_iff in Hx; cbn in Hx; intuition.
  - destruct Hok as [Hok|(pid & n & Hp & Hn & Ht)]; [contradiction|].
    rewrite Hp. destruct (cache_get_shape E c pid n (eq_sym Hs) Hn) as (n2 & Hn2 & Ht2 & _).
    rewrite Hn2, Ht2, Ht. eexists _, _. split; [reflexivity|].
    assert (Hgr : grows root c root (cache_set pid (push_child k (n_type v) n2) c)).
    { split; [auto|]. intros P m Hm. rewrite cache_get_set.
      destruct (String.eqb_spec P pid) as [->|]; [|eauto].
      rewrite Hn2 in Hm. injection Hm as <-. eexists. split; [reflexivity|].
      split; [apply push_child_type|]. intros ty x. apply push_child_grows. }
    split; [|split; [exact Hroot|split]].
    + rewrite <-Hs. apply (shape_set pid n2); [exact Hn2|apply push_child_type|apply push_child_parentId].
    + intros P m x Hm Hx. rewrite cache_get_set in Hm.
      destruct (String.eqb_spec P pid) as [->|]; [|eauto].
      injection Hm as <-. apply push_child_dirs in Hx as [Hx|[-> Htv]]; [eauto|].
      exists v. split; [exact HkE|]. split; [exact Htv|]. split; [exact Hp|].
      intros ->. apply H0. exact Hp.
    + apply Forall_app. split.
      * eapply Forall_impl; [exact Hdone|]. intros kv. by apply attached_grows.
      * constructor; [|constructor]. unfold attached. cbn. case_decide; [contradiction|].
        exists pid, (push_child k (n_type v) n2).
        rewrite cache_get_set, String.eqb_refl, push_child_type, Ht2, Ht.
        split; [exact Hp|]. split; [reflexivity|]. split; [reflexivity|]. apply push_child_new.
Qed.

Lemma link_fold rest done root c :
  E = done ++ rest -> link_inv E done root c -> Forall (ok_entry E) rest ->
  exists root' c', fold_left link_one rest (Ok (root, c)) = Ok (root', c') /\ link_inv E E root' c'.
Proof.
  revert done root c. induction rest as [|[k v] rest IH]; intros done root c HE Hinv Hok.
  - rewrite app_nil_r in HE. subst done. eauto.
  - apply Forall_cons in Hok as [Hk Hok]. cbn [fold_left].
    destruct (link_one_ok done root c k v) as (root' & c' & -> & Hinv'); try assumption.
    { rewrite HE. apply in_or_app. right. left. reflexivity. }
    apply (IH (done ++ [(k, v)])); [|assumption|assumption]. rewrite HE, <-app_assoc. reflexivity.
Qed.

Lemma link_ok :
  (forall kv, In kv E -> n_dirs kv.2 = []) -> Forall (ok_entry E) E ->
  exists root c, link E = Ok (root, c) /\ link_inv E E root c.
Proof.
  intros Hempty Hok. unfold link. apply (link_fold E []); [reflexivity| |exact Hok].
  split; [reflexivity|]. split; [cbn; tauto|]. split; [|constructor].
  intros P n k Hn Hk. apply cache_get_In, Hempty in Hn. cbn in Hn. rewrite Hn in Hk. destruct Hk.
Qed.

End Link.

Lemma max_key_length_get c k m : cache_get k c = Some m -> String.length k <= max_key_length c.
Proof.
  intros H. apply cache_get_In in H. unfold max_key_length.
  induction c as [|[k' v'] c' IH]; cbn in *; [destruct H|].
  destruct H as [[= -> ->]|H]; [lia|]. specialize (IH H). lia.
Qed.

Section Depth.

Variable c : Cache.

Hypothesis Hc : forall P n k, cache_get P c = Some n -> In k (n_dirs n) ->
  String.length P < String.length k /\ exists m, cache_get k c = Some m /\ n_type m = DIRECTORY.

Lemma getDepth_ok f : forall fl ds d L,
  max_key_length c - L < f ->
  (forall k, In k ds -> L < String.length k /\ exists m, cache_get k c = Some m /\ n_type m = DIRECTORY) ->
  exists r, getDepth f c fl ds d = Ok r.
Proof.
  induction f as [|f IHf]; intros fl ds d L Hf Hds; [lia|].
  cbn [getDepth]. generalize (map (fun k => (k, S d)) fl) as acc.
  induction ds as [|k ds IHds]; intros acc; [eauto|].
  destruct (Hds k (or_introl eq_refl)) as [HL (m & Hm & Ht)].
  rewrite Hm, Ht.
  destruct (IHf (n_files m) (n_dirs m) (S d) (String.length k)) as [r Hr].
  { pose proof (max_key_length_get c k m Hm). lia. }
  { intros k' Hk'. apply (Hc k m k' Hm Hk'). }
  rewrite Hr. apply IHds. intros k' Hk'. apply Hds. right. exact Hk'.
Qed.

End Depth.

Lemma parentId_of_two dirs p : length (split_slash p) = 2 -> parentId_of dirs p = Some "0".
Proof. intros H. unfold parentId_of. rewrite H. reflexivity. Qed.

Lemma parentId_of_Some dirs p P :
  parentId_of dirs p = Some P -> P = "0" \/ (3 <= length (split_slash p) -> P = parent_path p).
Proof.
  unfold parentId_of. destruct (Nat.eqb_spec (length (split_slash p)) 2) as [H2|H2].
  - intros [= <-]. left. reflexivity.
  - destruct (find _ dirs) as [x|] eqn:Hf; cbn; [|discriminate].
    intros [= <-]. right. intros _. apply find_some in Hf as [_ Hx].
    by apply String.eqb_eq in Hx.
Qed.

Lemma parentId_of_parent dirs p d :
  3 <= length (split_slash p) -> In d dirs -> path d = parent_path p ->
  parentId_of dirs p = Some (parent_path p).
Proof.
  intros H3 Hd Hpd. unfold parentId_of.
  destruct (Nat.eqb_spec (length (split_slash p)) 2) as [H2|H2]; [lia|].
  destruct (find _ dirs) as [x|] eqn:Hf; cbn.
  - apply find_some in Hf as [_ Hx]. apply String.eqb_eq in Hx. by rewrite Hx.
  - eapply find_none in Hf; [|exact Hd]. cbn in Hf. rewrite Hpd, String.eqb_refl in Hf. discriminate.
Qed.

Lemma build_cache_entries data kv :
  In kv (map (fun x => (path x, dir_node (dirs_of data) x)) (dirs_of data)
         ++ map (fun x => (path x, file_node (dirs_of data) x)) (files_of data)) <->
  exists e, In e data /\ kv = (path e, match rtype_of e with
                                       | RDir => dir_node (dirs_of data) e
                                       | RFile => file_node (dirs_of data) e end).
Proof.
  unfold dirs_of at 2, files_of. rewrite in_app_iff, !in_map_iff. split.
  - intros [(x & <- & Hx)|(x & <- & Hx)]; apply List.filter_In in Hx as [Hx Ht];
      exists x; (split; [exact Hx|]); destruct (rtype_of x); first [reflexivity|discriminate].
  - intros (e & He & ->). destruct (rtype_of e) eqn:Ht; [right|left]; exists e;
      (split; [reflexivity|]); apply List.filter_In; rewrite Ht; auto.
Qed.

Lemma link_one_result st kv :
  (st = Throw type_error \/ exists x, st = Ok x) ->
  link_one st kv = Throw type_error \/ exists x, link_one st kv = Ok x.
Proof.
  intros [->|[[root c] ->]]; [left; reflexivity|].
  destruct kv as [k v]. unfold link_one.
  case_decide; [destruct (n_type v); eauto|].
  destruct (n_parentId v) as [pid|]; [|left; reflexivity].
  destruct (cache_get pid c) as [n|]; [|left; reflexivity].
  destruct (n_type n); eauto.
Qed.

Lemma link_fold_throw l st :
  (st = Throw type_error \/ exists x, st = Ok x) ->
  (exists kv, In kv l /\ n_parentId kv.2 = None) ->
  fold_left link_one l st = Throw type_error.
Proof.
  revert st. induction l as [|kv l IH]; intros st Hst (kv' & Hin & Hn); [destruct Hin|].
  cbn [fold_left]. destruct Hin as [->|Hin].
  - assert (Hth : link_one st kv' = Throw type_error).
    { destruct Hst as [->|[[root c] ->]]; [reflexivity|].
      destruct kv' as [k v]. cbn in Hn. unfold link_one. rewrite Hn.
      case_decide; [discriminate|reflexivity]. }
    rewrite Hth. clear. induction l as [|kv l IH]; [reflexivity|exact IH].
  - apply IH; [apply link_one_result, Hst|eauto].
Qed.

Lemma cache_set_keys k v c : In (k, v) (cache_set k v c).
Proof.
  induction c as [|[k' v'] c IH]; cbn; [left; reflexivity|].
  destruct (String.eqb k k'); [left; reflexivity|right; exact IH].
Qed.

Lemma cache_set_in k v c kv : In kv (cache_set k v c) -> kv = (k, v) \/ In kv c.
Proof.
  induction c as [|[k' v'] c IH]; cbn; [intuition|].
  destruct (String.eqb k k'); cbn; [intuition|].
  intros [<-|H]; [right; left; reflexivity|]. destruct (IH H); auto.
Qed.

Lemma cache_set_keeps k v c k' : In k' (map fst c) -> In k' (map fst (cache_set k v c)).
Proof.
  induction c as [|[k1 v1] c IH]; cbn; [intros []|].
  destruct (String.eqb_spec k k1) as [->|]; cbn; intuition.
Qed.

(** Every object of the cache carries the [parentId] computed from its
    key, and every entry's path is a key. *)
Lemma build_cache_parentIds data :
  (forall kv, In kv (build_cache data) -> n_parentId kv.2 = parentId_of (dirs_of data) kv.1) /\
  (forall e, In e data -> In (path e) (map fst (build_cache data))).
Proof.
  unfold build_cache.
  assert (Hfold : forall (g : RemoteFile -> Node) l c,
    (forall x, n_parentId (g x) = parentId_of (dirs_of data) (path x)) ->
    (forall kv, In kv c -> n_parentId kv.2 = parentId_of (dirs_of data) kv.1) ->
    (forall kv, In kv (fold_left (fun c item => cache_set (path item) (g item) c) l c) ->
       n_parentId kv.2 = parentId_of (dirs_of data) kv.1) /\
    (forall k, In k (map fst c) \/ In k (map path l) ->
       In k (map fst (fold_left (fun c item => cache_set (path item) (g item) c) l c)))).
  { intros g l. induction l as [|x l IH]; intros c Hg Hc; cbn [fold_left].
    - split; [exact Hc|]. intros k [Hk|[]]. exact Hk.
    - destruct (IH (cache_set (path x) (g x) c) Hg) as [IH1 IH2].
      { intros kv Hkv. apply cache_set_in in Hkv as [->|Hkv]; [apply Hg|auto]. }
      split; [exact IH1|]. intros k Hk. apply IH2.
      destruct Hk as [Hk|[Hk|Hk]]; [left; by apply cache_set_keeps|left|right; exact Hk].
      subst k. apply in_map_iff. exists (path x, g x). split; [reflexivity|apply cache_set_keys]. }
  destruct (Hfold (dir_node (dirs_of data)) (dirs_of data) []) as [H1 H2];
    [reflexivity|intros _ []|].
  destruct (Hfold (file_node (dirs_of data)) (files_of data)
              (fold_left (fun c item => cache_set (path item) (dir_node (dirs_of data) item) c)
                 (dirs_of data) [])) as [H3 H4]; [reflexivity|exact H1|].
  split; [exact H3|]. intros e He. apply H4.
  destruct (rtype_of e) eqn:Ht.
  - right. apply in_map_iff. exists e. split; [reflexivity|]. apply List.filter_In. rewrite Ht. auto.
  - left. apply H2. right. apply in_map_iff. exists e. split; [reflexivity|].
    apply List.filter_In. rewrite Ht. auto.
Qed.

Lemma buildFileTree_missing_parent (data : list RemoteFile) (e : RemoteFile) :
  In e data -> 3 <= length (split_slash (path e)) ->
  ~ (exists d, In d data /\ rtype_of d = RDir /\ path d = parent_path (path e)) ->
  buildFileTree data = Throw type_error.
Proof.
  intros He H3 Hno. destruct (build_cache_parentIds data) as [Hp Hk].
  apply Hk, in_map_iff in He as ([k v] & Hkv & Hin). cbn in Hkv. subst k.
  assert (Hnone : n_parentId v = None).
  { pose proof (Hp _ Hin) as Hv. cbn in Hv. rewrite Hv. unfold parentId_of.
    destruct (Nat.eqb_spec (length (split_slash (path e))) 2) as [|_]; [lia|].
    destruct (find _ _) as [x|] eqn:Hf; [|reflexivity]. exfalso. apply Hno.
    apply find_some in Hf as [Hx Heq]. apply String.eqb_eq in Heq.
    apply List.filter_In in Hx as [Hx Ht]. exists x. split; [exact Hx|]. split; [|exact Heq].
    destruct (rtype_of x); first [reflexivity|discriminate]. }
  unfold buildFileTree, link. rewrite link_fold_throw; [reflexivity|eauto|].
  exists (path e, v). auto.
Qed.

(** Under distinct paths of at least two segments and parent
    directories present, [buildFileTree] completes and links every entry. *)
Lemma buildFileTree_links_all (data : list RemoteFile)
  (Hnd : NoDup (map path data))
  (Hseg : Forall (fun e => 2 <= length (split_slash (path e))) data)
  (Hpar : parent_dirs_present data) :
  exists root c depths, buildFileTree data = Ok (root, c, depths) /\
  Forall (fun e =>
    (length (split_slash (path e)) = 2 -> In (path e) (root_list (ftype_of e) root)) /\
    (3 <= length (split_slash (path e)) ->
       exists n, cache_get (parent_path (path e)) c = Some n /\ n_type n = DIRECTORY /\
                 In (path e) (child_list (ftype_of e) n))) data.
Proof.
  unfold parent_dirs_present in Hpar. rewrite List.Forall_forall in Hseg, Hpar.
  pose proof (build_cache_eq data Hnd) as HE.
  set (E := build_cache data) in HE.
  assert (HndE : NoDup (map fst E)).
  { rewrite HE, map_app, !map_map. exact (nodup_split data Hnd). }
  assert (Hent : forall kv, In kv E -> exists e, In e data /\ kv.1 = path e /\
            n_type kv.2 = ftype_of e /\ n_parentId kv.2 = parentId_of (dirs_of data) (path e) /\
            n_dirs kv.2 = []).
  { intros kv Hkv. rewrite HE, build_cache_entries in Hkv. destruct Hkv as (e & He & ->).
    exists e. unfold ftype_of. destruct (rtype_of e); auto. }
  assert (Hdir : forall d, In d data -> rtype_of d = RDir ->
            cache_get (path d) E = Some (dir_node (dirs_of data) d)).
  { intros d Hd Ht. apply cache_get_nodup; [exact HndE|]. rewrite HE, build_cache_entries.
    exists d. rewrite Ht. auto. }
  assert (Hpid : forall e, In e data -> 3 <= length (split_slash (path e)) ->
            parentId_of (dirs_of data) (path e) = Some (parent_path (path e)) /\
            exists n, cache_get (parent_path (path e)) E = Some n /\ n_type n = DIRECTORY).
  { intros e He H3. destruct (Hpar e He H3) as (d & Hd & Ht & Hpd). split.
    - apply (parentId_of_parent _ _ d); [exact H3| |exact Hpd].
      apply List.filter_In. rewrite Ht. auto.
    - rewrite <-Hpd. eexists. split; [apply Hdir; assumption|reflexivity]. }
  destruct (link_ok E) as (root & c & Hlink & Hs & Hroot & Hdirs & Hdone).
  { intros kv Hkv. destruct (Hent kv Hkv) as (e & _ & _ & _ & _ & H). exact H. }
  { apply List.Forall_forall. intros kv Hkv. destruct (Hent kv Hkv) as (e & He & _ & _ & Hp & _).
    unfold ok_entry. rewrite Hp.
    pose proof (Hseg e He) as H2.
    destruct (Nat.eq_dec (length (split_slash (path e))) 2) as [E2|E2].
    - left. by apply parentId_of_two.
    - right. destruct (Hpid e He ltac:(lia)) as [-> (n & Hn & Ht)]. eauto. }
  assert (Hgetdir : forall k v, In (k, v) E -> n_type v = DIRECTORY ->
            exists m, cache_get k c = Some m /\ n_type m = DIRECTORY).
  { intros k v Hkv Ht. apply (cache_get_nodup k v E HndE) in Hkv.
    destruct (cache_get_shape E c k v (eq_sym Hs) Hkv) as (m & Hm & Htm & _).
    exists m. by rewrite Htm. }
  destruct (getDepth_ok c) with (f := S (max_key_length c)) (fl := root_files root)
    (ds := root_dirs root) (d := 0) (L := 0) as [depths Hdepth].
  { intros P n k Hn Hk. destruct (Hdirs P n k Hn Hk) as (v & Hkv & Ht & Hp & HP0).
    split; [|eauto].
    destruct (Hent (k, v) Hkv) as (e & He & Hk' & _ & Hp' & _). cbn in Hk', Hp'. subst k.
    pose proof Hp as Hq. rewrite Hp' in Hq. apply parentId_of_Some in Hq as [|HP]; [contradiction|].
    pose proof (Hseg e He) as H2.
    destruct (Nat.eq_dec (length (split_slash (path e))) 2) as [E2|E2].
    - rewrite (parentId_of_two _ _ E2) in Hp'. exfalso. apply HP0. congruence.
    - rewrite HP by lia. apply parent_path_shorter. exact H2. }
  { lia. }
  { intros k Hk. destruct (Hroot k Hk) as (v & Hkv & Ht). split; [|eauto].
    destruct (Hent (k, v) Hkv) as (e & He & Hk' & _). cbn in Hk'. subst k.
    pose proof (split_two_nonempty (path e) (Hseg e He)) as Hne.
    destruct (path e); [contradiction|]. cbn. lia. }
  exists root, c, depths. split.
  { unfold buildFileTree. fold E. rewrite Hlink, Hdepth. reflexivity. }
  apply List.Forall_forall. intros e He.
  assert (HeE : In (path e, match rtype_of e with
                              | RDir => dir_node (dirs_of data) e
                              | RFile => file_node (dirs_of data) e end) E).
  { rewrite HE, build_cache_entries. eauto. }
  rewrite List.Forall_forall in Hdone. pose proof (Hdone _ HeE) as Hat.
  set (v := match rtype_of e with
            | RDir => dir_node (dirs_of data) e
            | RFile => file_node (dirs_of data) e end) in Hat.
  assert (Hv : n_type v = ftype_of e /\ n_parentId v = parentId_of (dirs_of data) (path e))
    by (unfold v, ftype_of; destruct (rtype_of e); auto).
  clearbody v. destruct Hv as [Hvt Hvp].
  unfold attached in Hat. cbn in Hat. rewrite Hvt, Hvp in Hat. split.
  - intros E2. rewrite (parentId_of_two _ _ E2) in Hat.
    case_decide; [exact Hat|contradiction].
  - intros E3. destruct (Hpid e He E3) as [Hp _]. rewrite Hp in Hat. case_decide as H0.
    + exfalso. injection H0. apply parent_path_not_root. exact E3.
    + destruct Hat as (pid & n & [= <-] & Hn & Htn & Hin). eauto.
Qed.

(** C10 (amended): an entry with three or more segments and no directory
    entry at its parent path gets parentId [undefined] and makes
    [buildFileTree] throw. When the entries have distinct paths, every
    path has at least two segments, and every entry with three or more
    segments has a directory entry at its parent path, [buildFileTree]
    completes without error (linking and [getDepth]). Then an entry with
    two segments is in the root's [dirs] or [files] array, and any other
    entry is in the array of the directory object at its parent path. *)
Theorem buildFileTree_total_attached :
  (forall (data : list RemoteFile) (e : RemoteFile),
     In e data -> 3 <= length (split_slash (path e)) ->
     ~ (exists d, In d data /\ rtype_of d = RDir /\ path d = parent_path (path e)) ->
     buildFileTree data = Throw type_error) /\
  (forall data : list RemoteFile,
     NoDup (map path data) ->
     Forall (fun e => 2 <= length (split_slash (path e))) data ->
     parent_dirs_present data ->
     exists root c depths, buildFileTree data = Ok (root, c, depths) /\
     Forall (fun e =>
       (length (split_slash (path e)) = 2 -> In (path e) (root_list (ftype_of e) root)) /\
       (3 <= length (split_slash (path e)) ->
          exists n, cache_get (parent_path (path e)) c = Some n /\ n_type n = DIRECTORY /\
                    In (path e) (child_list (ftype_of e) n))) data).
Proof. split; [exact buildFileTree_missing_parent|exact buildFileTree_links_all]. Qed.

Example findFileByName_two_matches :
  option_map f_id (findFileByName two_index_tree "index.js") = Some "/src/index.js".
Proof. reflexivity. Qed.

Lemma buildFileTree_total_attached_witness :
  (In (mkRemote RFile "x" "/a/x") orphan_entry /\
   buildFileTree orphan_entry = Throw type_error) /\
  NoDup (map path sample_tree) /\
  Forall (fun e => 2 <= length (split_slash (path e))) sample_tree /\
  parent_dirs_present sample_tree /\
  exists root c depths, buildFileTree sample_tree = Ok (root, c, depths) /\
  Forall (fun e =>
    (length (split_slash (path e)) = 2 -> In (path e) (root_list (ftype_of e) root)) /\
    (3 <= length (split_slash (path e)) ->
       exists n, cache_get (parent_path (path e)) c = Some n /\ n_type n = DIRECTORY /\
                 In (path e) (child_list (ftype_of e) n))) sample_tree.
Proof.
  assert (H0 : In (mkRemote RFile "x" "/a/x") orphan_entry) by (left; reflexivity).
  assert (H0' : 3 <= length (split_slash (path (mkRemote RFile "x" "/a/x")))) by (cbn; lia).
  assert (H0'' : ~ (exists d, In d orphan_entry /\ rtype_of d = RDir /\
                   path d = parent_path (path (mkRemote RFile "x" "/a/x")))).
  { intros (d & [<-|[]] & Ht & _). discriminate. }
  assert (H1 : NoDup (map path sample_tree)) by (apply (bool_decide_unpack _); vm_compute; exact I).
  assert (H2 : Forall (fun e => 2 <= length (split_slash (path e))) sample_tree)
    by (repeat constructor).
  assert (H3 : parent_dirs_present sample_tree).
  { unfold parent_dirs_present. constructor; [cbn; lia|]. constructor; [|constructor; [cbn; lia|constructor]].
    intros _. exists (mkRemote RDir "a" "/a"). split; [left; reflexivity|]. split; reflexivity. }
  exact (conj (conj H0 (proj1 buildFileTree_total_attached orphan_entry _ H0 H0' H0''))
          (conj H1 (conj H2 (conj H3 (proj2 buildFileTree_total_attached sample_tree H1 H2 H3))))).
Defined.

(** C10: the stated precondition does not make [buildFileTree] total.
    An entry with a one-segment path satisfies it vacuously, gets
    parentId [undefined] and makes the linking pass throw. A directory
    and a file sharing "/a" satisfy it for "/a/x", but the file replaces
    the directory in the cache, so "/a/x" is pushed onto a [File]
    object, which has no [files] array. *)
Lemma buildFileTree_throws_under_precondition :
  (parent_dirs_present flat_entry /\ buildFileTree flat_entry = Throw type_error) /\
  (parent_dirs_present dir_file_same_path /\ buildFileTree dir_file_same_path = Throw type_error).
Proof.
  split; split; [| vm_compute; reflexivity | | vm_compute; reflexivity].
  - constructor; [cbn; lia|constructor].
  - unfold parent_dirs_present. constructor; [cbn; lia|]. constructor; [cbn; lia|].
    constructor; [|constructor]. intros _. exists (mkRemote RDir "a" "/a").
    split; [left; reflexivity|]. split; reflexivity.
Qed.

End FileManager.

Module MergeProps.

Import Merge.

Lemma dedup_ext (seen seen' : list string) (l : list RemoteFile) :
  (forall s, s ∈ seen <-> s ∈ seen') -> dedup seen l = dedup seen' l.
Proof.
  revert seen seen'. induction l as [|x l IH]; intros seen seen' Hs; simpl; [reflexivity|].
  destruct (decide (path x ∈ seen)) as [H1|H1]; destruct (decide (path x ∈ seen')) as [H2|H2].
  - apply IH, Hs.
  - exfalso. apply H2, Hs, H1.
  - exfalso. apply H1, Hs, H2.
  - f_equal. apply IH. intros s. rewrite !elem_of_app, Hs. reflexivity.
Qed.

(** A list with distinct paths, none of them already seen, passes
    through [dedup] unchanged. *)
Lemma dedup_fresh_app (seen : list string) (l1 l2 : list RemoteFile) :
  NoDup (map path l1) -> (forall s, In s (map path l1) -> s ∉ seen) ->
  dedup seen (l1 ++ l2) = l1 ++ dedup (seen ++ map path l1) l2.
Proof.
  revert seen. induction l1 as [|x l1 IH]; intros seen Hnd Hfr; simpl.
  - apply dedup_ext. intros s. rewrite app_nil_r. reflexivity.
  - inversion Hnd as [|? ? Hx Hnd']; subst.
    destruct (decide (path x ∈ seen)) as [Hin|Hnin].
    + exfalso. apply (Hfr (path x)); [left; reflexivity|exact Hin].
    + f_equal. rewrite IH; [|exact Hnd'|].
      * f_equal. apply dedup_ext. intros s. rewrite <- app_assoc. reflexivity.
      * intros s Hs Hs'. apply elem_of_app in Hs' as [Hs'|Hs'].
        -- apply (Hfr s); [right; exact Hs|exact Hs'].
        -- apply list_elem_of_singleton in Hs'. subst s. apply Hx. rewrite list_elem_of_In. exact Hs.
Qed.

Lemma dedup_all_seen (seen : list string) (l : list RemoteFile) :
  (forall x, In x l -> path x ∈ seen) -> dedup seen l = [].
Proof.
  induction l as [|x l IH]; intros Hall; simpl; [reflexivity|].
  destruct (decide (path x ∈ seen)) as [_|Hn]; [apply IH; intros y Hy; apply Hall; right; exact Hy|].
  exfalso. apply Hn, Hall. left. reflexivity.
Qed.

Lemma dedup_covers (seen : list string) (l : list RemoteFile) (x : RemoteFile) :
  In x l -> path x ∈ seen \/ In (path x) (map path (dedup seen l)).
Proof.
  revert seen. induction l as [|y l IH]; intros seen Hx; simpl; [destruct Hx|].
  destruct (decide (path y ∈ seen)) as [Hin|Hnin].
  - destruct Hx as [<-|Hx]; [left; exact Hin|apply IH, Hx].
  - destruct Hx as [<-|Hx]; [right; left; reflexivity|].
    destruct (IH (seen ++ [path y]) Hx) as [H|H]; [|right; right; exact H].
    apply elem_of_app in H as [H|H]; [left; exact H|].
    apply list_elem_of_singleton in H. right. left. symmetry. exact H.
Qed.

(** When the accumulated list has distinct paths (as every list
    [merge] returns has), merging a response keeps that list, in its
    order, as a prefix and appends only the entries whose path is new,
    first occurrence first. *)
Theorem merge_keeps_prefix (prev data : list RemoteFile) :
  NoDup (map path prev) ->
  merge prev data = prev ++ dedup (map path prev) data.
Proof.
  intros Hnd. rewrite merge_dedup, dedup_fresh_app; [|exact Hnd|intros s _ Hs; inversion Hs].
  reflexivity.
Qed.

Lemma merge_keeps_prefix_witness :
  NoDup (map path root_listing) /\
  merge root_listing a_listing = root_listing ++ dedup (map path root_listing) a_listing.
Proof.
  split; [apply (bool_decide_unpack _); vm_compute; exact I|].
  apply merge_keeps_prefix. apply (bool_decide_unpack _); vm_compute; exact I.
Defined.

(** Merging the same response a second time changes nothing: fetching a
    directory again after its listing was merged leaves the file
    structure as it was. *)
Theorem merge_idempotent (prev data : list RemoteFile) :
  merge (merge prev data) data = merge prev data.
Proof.
  rewrite (merge_keeps_prefix (merge prev data) data).
  2: { rewrite merge_dedup. apply dedup_nodup. }
  rewrite dedup_all_seen; [apply app_nil_r|].
  intros x Hx. rewrite merge_dedup.
  destruct (dedup_covers [] (prev ++ data) x) as [H|H].
  - apply in_or_app. right. exact Hx.
  - inversion H.
  - apply list_elem_of_In. exact H.
Qed.

End MergeProps.

Module PtyProps.

Import Pty.

(** [clear] on a socket id without a session changes nothing: no
    process is signalled and the session map is left as it is. *)
Theorem clear_absent_noop (m : Manager) (k : string) :
  sessions m !! k = None -> clear k m = m.
Proof.
  intros Hk. unfold clear. rewrite Hk.
  destruct m as [ss ps np em]. simpl in *. f_equal. apply delete_id. exact Hk.
Qed.

Lemma clear_absent_noop_witness :
  sessions (boot 4242) !! "sockA" = None /\ clear "sockA" (boot 4242) = boot 4242.
Proof.
  split; [reflexivity|]. apply clear_absent_noop. reflexivity.
Defined.

(** A [terminalData] message after [requestTerminal] on the same
    socket reaches the shell just spawned for it: its input is exactly
    the data written, and it still runs and emits to that socket. *)
Theorem createPty_then_write (m : Manager) (id r sock d : string) :
  let '(p, m1) := createPty id r sock m in
  exists m2, write id d m1 = Ok m2 /\ procs m2 !! p = Some (mkProc true [d] sock) /\
             sessions m2 = sessions m1 /\ emitted m2 = emitted m.
Proof.
  unfold createPty, fork, write. simpl. rewrite lookup_insert_eq. simpl.
  eexists. split; [reflexivity|]. unfold term_write. simpl.
  rewrite lookup_insert_eq. simpl.
  split; [apply lookup_insert_eq|split; reflexivity].
Qed.

End PtyProps.

Module JsSplit.

Open Scope string_scope.
Open Scope list_scope.

(** [s.split(sep)] for a one-character separator. *)
Fixpoint split_on (sep : ascii) (s : string) : list string :=
  match s with
  | EmptyString => [""]
  | String c r =>
      let rest := split_on sep r in
      if Ascii.eqb c sep then "" :: rest
      else match rest with
           | [] => [String c ""]
           | h :: t => String c h :: t
           end
  end.

Fixpoint lacks (sep : ascii) (s : string) : bool :=
  match s with
  | EmptyString => true
  | String c r => negb (Ascii.eqb c sep) && lacks sep r
  end.

Lemma split_on_nil (sep : ascii) (s : string) : split_on sep s <> [].
Proof.
  induction s as [|c r IH]; cbn; [discriminate|].
  destruct (Ascii.eqb c sep); [discriminate|]. destruct (split_on sep r); [contradiction|discriminate].
Qed.

Lemma split_on_app_sep (sep : ascii) (a c : string) :
  split_on sep (a +:+ String sep c) = split_on sep a ++ split_on sep c.
Proof.
  induction a as [|x a IH].
  - change ("" +:+ String sep c) with (String sep c). cbn [split_on].
    rewrite Ascii.eqb_refl. reflexivity.
  - change (String x a +:+ String sep c) with (String x (a +:+ String sep c)).
    cbn [split_on]. rewrite IH.
    destruct (Ascii.eqb x sep); [reflexivity|].
    destruct (split_on sep a) as [|h t] eqn:E; [exfalso; exact (split_on_nil sep a E)|].
    reflexivity.
Qed.

Lemma split_on_lacks (sep : ascii) (s : string) : lacks sep s = true -> split_on sep s = [s].
Proof.
  induction s as [|c r IH]; [reflexivity|]. cbn [lacks split_on].
  intros H. apply andb_prop in H as [Hc Hr]. apply negb_true_iff in Hc.
  rewrite Hc, IH by exact Hr. reflexivity.
Qed.

Lemma split_on_pieces (sep : ascii) (s : string) :
  Forall (fun x => lacks sep x = true) (split_on sep s).
Proof.
  induction s as [|c r IH]; cbn [split_on]; [constructor; [reflexivity|constructor]|].
  destruct (Ascii.eqb c sep) eqn:Hc; [constructor; [reflexivity|exact IH]|].
  destruct (split_on sep r) as [|h t]; [constructor; [|constructor]|].
  - cbn. rewrite Hc. reflexivity.
  - inversion IH as [|? ? Hh Ht]; subst. constructor; [|exact Ht].
    cbn [lacks]. rewrite Hc, Hh. reflexivity.
Qed.

Lemma split_on_head (sep : ascii) (h : string) :
  exists x t, split_on sep h = x :: t /\
  exists rest, h = x +:+ rest /\ lacks sep x = true /\
               (rest = "" \/ exists t', rest = String sep t').
Proof.
  induction h as [|c r IH].
  - exists "", []. split; [reflexivity|]. exists "". split; [reflexivity|].
    split; [reflexivity|left; reflexivity].
  - cbn [split_on]. destruct IH as (x & t & Hs & rest & Hr & Hl & Hrest).
    destruct (Ascii.eqb_spec c sep) as [->|Hne].
    + exists "", (split_on sep r). split; [reflexivity|].
      exists (String sep r). split; [reflexivity|]. split; [reflexivity|].
      right. exists r. reflexivity.
    + rewrite Hs. exists (String c x), t. split; [reflexivity|].
      exists rest. split; [rewrite Hr; reflexivity|].
      split; [|exact Hrest]. cbn [lacks]. rewrite Hl, andb_true_r.
      apply negb_true_iff, Ascii.eqb_neq, Hne.
Qed.

Lemma split_on_app (sep : ascii) (x rest : string) :
  lacks sep x = true -> (rest = "" \/ exists t', rest = String sep t') ->
  exists t, split_on sep (x +:+ rest) = x :: t.
Proof.
  intros Hl Hrest. induction x as [|c x IH].
  - destruct Hrest as [->|[t' ->]]; [exists []; reflexivity|].
    change ("" +:+ String sep t') with (String sep t'). cbn [split_on].
    rewrite Ascii.eqb_refl. eexists. reflexivity.
  - cbn [lacks] in Hl. apply andb_prop in Hl as [Hc Hl].
    destruct (IH Hl) as [t Ht].
    change (String c x +:+ rest) with (String c (x +:+ rest)). cbn [split_on].
    rewrite Ht. apply negb_true_iff in Hc. rewrite Hc. exists t. reflexivity.
Qed.

End JsSplit.

Module Connection.

Import Pty JsSplit.


Open Scope string_scope.
Open Scope list_scope.

(** [host?.split('.')[0]]: undefined when the header is absent. *)
Definition host_replId (host : option string) : option string :=
  match host with
  | None => None
  | Some h => match split_on "." h with x :: _ => Some x | [] => None end
  end.

(** How the ["connection"] listener ends for the socket [socket_id]:
    disconnected (after [terminalManager.clear(socket.id)]), or past the
    guard with the [replId] it passes to [initHandlers]. *)
Inductive outcome :=
| Disconnected (m : Manager)
| Loaded (replId : string) (m : Manager).

Definition on_connection (host : option string) (socket_id : string) (m : Manager) : outcome :=
  match host_replId host with
  | Some r => if String.eqb r "" then Disconnected (clear socket_id m) else Loaded r m
  | None => Disconnected (clear socket_id m)
  end.

(** The connection listener keeps a socket exactly when the [Host]
    header is present and its text before the first [.] is non-empty;
    that text, which contains no [.], is the [replId], and the terminal
    sessions are left alone. Otherwise the socket is disconnected and
    the terminal session of its id is cleared. *)
Theorem on_connection_replId (host : option string) (socket_id : string) (m : Manager) :
  (forall r m', on_connection host socket_id m = Loaded r m' <->
     m' = m /\ r <> "" /\ lacks "." r = true /\
     exists rest, host = Some (r +:+ rest) /\ (rest = "" \/ exists t, rest = String "." t)) /\
  (forall m', on_connection host socket_id m = Disconnected m' ->
     m' = clear socket_id m /\
     (host = None \/ exists rest, host = Some rest /\ (rest = "" \/ exists t, rest = String "." t))).
Proof.
  unfold on_connection, host_replId. split.
  - intros r m'. split.
    + destruct host as [h|]; [|discriminate].
      destruct (split_on_head "." h) as (x & t & Hs & rest & Hr & Hl & Hrest).
      rewrite Hs. destruct (String.eqb_spec x "") as [_|Hx]; [discriminate|].
      intros H. injection H as <- <-.
      split; [reflexivity|]. split; [exact Hx|]. split; [exact Hl|].
      exists rest. split; [rewrite Hr; reflexivity|exact Hrest].
    + intros (-> & Hr & Hl & rest & -> & Hrest).
      destruct (split_on_app "." r rest Hl Hrest) as [t ->].
      destruct (String.eqb_spec r "") as [|_]; [contradiction|reflexivity].
  - intros m'. destruct host as [h|]; [|intros H; injection H as <-; split; [reflexivity|left; reflexivity]].
    destruct (split_on_head "." h) as (x & t & Hs & rest & Hr & Hl & Hrest).
    rewrite Hs. destruct (String.eqb_spec x "") as [->|Hx]; [|discriminate].
    intros H. injection H as <-. split; [reflexivity|].
    right. exists rest. split; [rewrite Hr; reflexivity|exact Hrest].
Qed.

End Connection.

Module S3CopyProps.

Import S3Copy.

Open Scope string_scope.
Open Scope list_scope.

(** The objects of [bk'] differ from those of [bk] only by copies to
    keys rewritten from [ks]: nothing is removed, the page size is kept,
    and every key whose body changed is [k.replace(src, dst)] for some
    [k] in [ks]. *)
Definition only_copies (src dst : string) (ks : list string) (bk bk' : Bucket) : Prop :=
  max_keys bk' = max_keys bk /\
  (forall k, In k (map fst (objects bk)) -> In k (map fst (objects bk'))) /\
  (forall k, assoc_get k (objects bk') <> assoc_get k (objects bk) ->
     exists s, In s ks /\ k = js_replace s src dst).

(** [process.env.S3_BUCKET] of the init service, the request body
    fields, and the status and body of the response. A field of the
    body is a string or absent. *)
Definition falsy (v : option string) : bool :=
  match v with None => true | Some s => String.eqb s "" end.

Definition bad_request : string := "Bad request: Missing replId or language".
Definition created : string := "Project created successfully".
Definition failed : string := "Failed to create project. Please check the logs.".

(** [projectHandler]: the status sent, its body, and the bucket after
    the handler's promise settles. *)
Definition projectHandler (S3_BUCKET : option string) (replId language : option string)
  (bk : Bucket) : nat * string * Bucket :=
  match replId, language with
  | Some r, Some l =>
      if falsy replId || falsy language then (400%nat, bad_request, bk)
      else
        let o := provision S3_BUCKET l r bk in
        match res o with
        | Ok _ => (200%nat, created, bucket_after o)
        | Throw _ => (500%nat, failed, bucket_after o)
        end
  | _, _ => (400%nat, bad_request, bk)
  end.

Lemma assoc_put_keeps (k k' v : string) (l : list (string * string)) :
  In k (map fst l) -> In k (map fst (assoc_put k' v l)).
Proof.
  induction l as [|[a b] l IH]; simpl; [tauto|].
  destruct (String.eqb_spec k' a) as [->|Hne]; simpl; [tauto|].
  intros [H|H]; [left; exact H|right; apply IH, H].
Qed.

Lemma assoc_get_put (k k' v : string) (l : list (string * string)) :
  assoc_get k (assoc_put k' v l) = if String.eqb k k' then Some v else assoc_get k l.
Proof.
  induction l as [|[a b] l IH]; simpl; [reflexivity|].
  destruct (String.eqb_spec k' a) as [->|Hne]; simpl.
  - destruct (String.eqb k a); reflexivity.
  - rewrite IH. destruct (String.eqb_spec k a) as [->|]; [|reflexivity].
    apply String.eqb_neq in Hne. rewrite String.eqb_sym, Hne. reflexivity.
Qed.

Lemma only_copies_refl src dst ks bk : only_copies src dst ks bk bk.
Proof. split; [reflexivity|split; [tauto|]]. intros k H. contradiction. Qed.

Lemma only_copies_trans src dst ks1 ks2 b1 b2 b3 :
  only_copies src dst ks1 b1 b2 -> only_copies src dst ks2 b2 b3 ->
  only_copies src dst (ks1 ++ ks2) b1 b3.
Proof.
  intros (Hm1 & Hk1 & Hc1) (Hm2 & Hk2 & Hc2).
  split; [congruence|split; [auto|]].
  intros k Hne.
  destruct (decide (assoc_get k (objects b3) = assoc_get k (objects b2))) as [E|E].
  - rewrite E in Hne. destruct (Hc1 k Hne) as (s & Hs & ->).
    exists s. split; [apply in_or_app; left; exact Hs|reflexivity].
  - destruct (Hc2 k E) as (s & Hs & ->).
    exists s. split; [apply in_or_app; right; exact Hs|reflexivity].
Qed.

Lemma only_copies_weaken src dst ks ks' bk bk' :
  (forall s, In s ks -> In s ks') -> only_copies src dst ks bk bk' -> only_copies src dst ks' bk bk'.
Proof.
  intros Hincl (Hm & Hk & Hc). split; [exact Hm|split; [exact Hk|]].
  intros k Hne. destruct (Hc k Hne) as (s & Hs & ->). eauto.
Qed.

Lemma copyObject_only src dst k bk bk' :
  copyObject bk k (js_replace k src dst) = Ok bk' -> only_copies src dst [k] bk bk'.
Proof.
  unfold copyObject. destruct (copy_fault bk k); [discriminate|].
  destruct (assoc_get k (objects bk)) as [v|]; [|discriminate].
  intros H. injection H as <-. split; [reflexivity|split].
  - intros k' Hk'. simpl. apply assoc_put_keeps. exact Hk'.
  - intros k' Hne. simpl in Hne. rewrite assoc_get_put in Hne.
    destruct (String.eqb_spec k' (js_replace k src dst)) as [E|E]; [|contradiction].
    exists k. split; [left; reflexivity|exact E].
Qed.

Lemma copy_chunk_only src dst c bk : only_copies src dst c bk (snd (copy_chunk src dst c bk)).
Proof.
  induction c as [|k c IH] in bk |- *; simpl; [apply only_copies_refl|].
  destruct (copyObject bk k (js_replace k src dst)) as [bk'|e] eqn:Hc.
  - apply (only_copies_trans src dst [k] c bk bk'); [apply copyObject_only, Hc|apply IH].
  - specialize (IH bk). destruct (copy_chunk src dst c bk) as [e' bk'']. simpl in *.
    apply (only_copies_weaken _ _ c); [intros s Hs; right; exact Hs|exact IH].
Qed.

Lemma copy_chunks_only src dst cs bk :
  only_copies src dst (concat cs) bk (snd (copy_chunks src dst cs bk)).
Proof.
  induction cs as [|c cs IH] in bk |- *; simpl; [apply only_copies_refl|].
  pose proof (copy_chunk_only src dst c bk) as Hc.
  destruct (copy_chunk src dst c bk) as [[e|] bk']; simpl in *.
  - apply (only_copies_weaken _ _ c); [intros s Hs; apply in_or_app; left; exact Hs|exact Hc].
  - apply (only_copies_trans _ _ c (concat cs) _ bk'); [exact Hc|apply IH].
Qed.

Lemma prefix_inv (p s : string) : String.prefix p s = true -> exists suf, s = p +:+ suf.
Proof.
  revert s. induction p as [|c p IH]; intros s H; [exists s; reflexivity|].
  destruct s as [|c' s]; [discriminate|]. cbn [String.prefix] in H.
  destruct (ascii_dec c c') as [<-|]; [|discriminate].
  destruct (IH s H) as [suf ->]. exists suf. reflexivity.
Qed.

Lemma list_page_prefix bk p tok s :
  In s (Contents (list_page bk p tok)) -> String.prefix p s = true.
Proof.
  unfold list_page. simpl. intros H.
  set (ks := List.filter (String.prefix p) (map fst (objects bk))) in *.
  assert (Hk : In s ks).
  { set (start := from_option id 0%nat tok) in *.
    rewrite <- (firstn_skipn start ks). apply in_or_app. right.
    rewrite <- (firstn_skipn (Pos.to_nat (max_keys bk)) (skipn start ks)).
    apply in_or_app. left. exact H. }
  apply filter_In in Hk. apply Hk.
Qed.

Lemma copyS3Folder_only S3_BUCKET src dst tok depth maxDepth bk :
  let o := copyS3Folder S3_BUCKET src dst tok depth maxDepth bk in
  only_copies src dst (concat (map Contents (listed o))) bk (bucket_after o) /\
  Forall (fun lr => exists b t, lr = list_page b src t) (listed o).
Proof.
  funelim (copyS3Folder S3_BUCKET src dst tok depth maxDepth bk); cbn [listed bucket_after].
  - split; [apply only_copies_refl|constructor].
  - split; [apply only_copies_refl|constructor].
  - destruct (listObjectsV2 bk src tok) as [lr|e0] eqn:Hl.
    2:{ cbn [listed bucket_after]. split; [apply only_copies_refl|constructor]. }
    assert (Hlr : exists b t, lr = list_page b src t).
    { unfold listObjectsV2 in Hl. destruct (list_fault bk tok); [discriminate|].
      injection Hl as <-. exists bk, tok. reflexivity. }
    destruct (Contents lr) as [|k ks] eqn:Hc.
    + cbn [listed bucket_after]. split; [apply only_copies_refl|constructor; [exact Hlr|constructor]].
    + pose proof (copy_chunks_only src dst (chunks (k :: ks)) bk) as Hch.
      rewrite chunks_concat in Hch.
      destruct (copy_chunks src dst (chunks (k :: ks)) bk) as [[e'|] bk']; simpl in Hch.
      * cbn [listed bucket_after map concat]. rewrite app_nil_r, Hc. split; [exact Hch|constructor; [exact Hlr|constructor]].
      * destruct (IsTruncated lr) eqn:Ht.
        -- specialize (H0 lr "" [] None bk').
           destruct H0 as [Hsub Hall]. cbn [listed bucket_after map concat].
           rewrite Hc. split; [|constructor; [exact Hlr|exact Hall]].
           exact (only_copies_trans _ _ _ _ _ _ _ Hch Hsub).
        -- cbn [listed bucket_after map concat]. rewrite app_nil_r, Hc. split; [exact Hch|constructor; [exact Hlr|constructor]].
Qed.

Lemma copyS3Folder_no_bucket S3_BUCKET src dst tok depth maxDepth bk :
  bucket_missing S3_BUCKET = true ->
  copyS3Folder S3_BUCKET src dst tok depth maxDepth bk = mkOut (Throw bucket_msg) bk [].
Proof.
  funelim (copyS3Folder S3_BUCKET src dst tok depth maxDepth bk); intros Hb;
    first [reflexivity|congruence].
Qed.

Lemma no_dollar_app (a b : string) : no_dollar (a +:+ b) = no_dollar a && no_dollar b.
Proof.
  induction a as [|c a IH]; [reflexivity|].
  change (String c a +:+ b) with (String c (a +:+ b)). cbn [no_dollar].
  rewrite IH. apply andb_assoc.
Qed.

Lemma str_app_assoc' (a b c : string) : a +:+ (b +:+ c) = (a +:+ b) +:+ c.
Proof.
  induction a as [|x a IH]; [reflexivity|].
  change (String x (a +:+ (b +:+ c)) = String x ((a +:+ b) +:+ c)). rewrite IH. reflexivity.
Qed.

(** The template objects are split into groups of at most ten keys,
    none empty, which together are the listed keys in order. *)
Theorem chunks_partition (l : list string) :
  concat (chunks l) = l /\
  Forall (fun c => c <> [] /\ (length c <= maxConcurrency)%nat) (chunks l).
Proof. apply chunks_go_concat. lia. Qed.

(** [copyS3Folder] never deletes an object: every key present before
    the call is present after it, whatever the outcome. Every object
    whose body changed sits at [key.replace(sourcePrefix,
    destinationPrefix)] for a key of one of the pages it listed, and
    every such key starts with the source prefix. *)
Theorem copyS3Folder_never_deletes (S3_BUCKET : option string) (src dst : string)
  (tok : option nat) (depth maxDepth : nat) (bk : Bucket) :
  let o := copyS3Folder S3_BUCKET src dst tok depth maxDepth bk in
  (forall k, In k (map fst (objects bk)) -> In k (map fst (objects (bucket_after o)))) /\
  (forall k, assoc_get k (objects (bucket_after o)) <> assoc_get k (objects bk) ->
     exists lr s, In lr (listed o) /\ In s (Contents lr) /\
                  String.prefix src s = true /\ k = js_replace s src dst).
Proof.
  cbv zeta. destruct (copyS3Folder_only S3_BUCKET src dst tok depth maxDepth bk)
    as [(_ & Hk & Hc) Hall].
  split; [exact Hk|].
  intros k Hne. destruct (Hc k Hne) as (s & Hs & ->).
  apply in_concat in Hs as (ks & Hks & Hs). apply in_map_iff in Hks as (lr & <- & Hlr).
  exists lr, s. split; [exact Hlr|]. split; [exact Hs|]. split; [|reflexivity].
  rewrite List.Forall_forall in Hall. destruct (Hall lr Hlr) as (b & t & ->).
  exact (list_page_prefix _ _ _ _ Hs).
Qed.

(** For a project whose [replId] has no [$], [projectHandler]'s copy
    writes only below [code/${replId}]: each changed key is
    [code/${replId}] followed by the rest of a listed key after
    [base/${language}]. *)
Theorem provision_writes_under_destination (S3_BUCKET : option string)
  (language replId : string) (bk : Bucket) :
  no_dollar replId = true ->
  let o := provision S3_BUCKET language replId bk in
  forall k, assoc_get k (objects (bucket_after o)) <> assoc_get k (objects bk) ->
  exists lr suf, In lr (listed o) /\ In ("base/" +:+ language +:+ suf) (Contents lr) /\
                 k = "code/" +:+ replId +:+ suf.
Proof.
  intros Hd. cbv zeta. intros k Hne.
  destruct (copyS3Folder_only S3_BUCKET ("base/" +:+ language) ("code/" +:+ replId)
              None 0 10 bk) as [(_ & _ & Hc) Hall].
  destruct (Hc k Hne) as (s & Hs & ->).
  apply in_concat in Hs as (ks & Hks & Hs). apply in_map_iff in Hks as (lr & <- & Hlr).
  rewrite List.Forall_forall in Hall. destruct (Hall lr Hlr) as (b & t & Heq).
  pose proof Hs as Hs'. rewrite Heq in Hs'.
  apply list_page_prefix, prefix_inv in Hs' as [suf ->].
  exists lr, suf. split; [exact Hlr|]. split; [rewrite str_app_assoc'; exact Hs|].
  rewrite js_replace_plain_prefix by (rewrite no_dollar_app; exact Hd).
  symmetry. apply str_app_assoc'.
Qed.

Lemma provision_writes_under_destination_witness :
  let bk := mkBucket [("base/node-js/index.js", "1"); ("other", "2")] 1 in
  no_dollar "w1" = true /\
  (let o := provision (Some "b") "node-js" "w1" bk in
   forall k, assoc_get k (objects (bucket_after o)) <> assoc_get k (objects bk) ->
   exists lr suf, In lr (listed o) /\ In ("base/" +:+ "node-js" +:+ suf) (Contents lr) /\
                  k = "code/" +:+ "w1" +:+ suf).
Proof.
  intros bk. split; [reflexivity|].
  apply (provision_writes_under_destination (Some "b") "node-js" "w1" bk). reflexivity.
Defined.

(** [projectHandler] answers 400 exactly when [replId] or [language] is
    missing or empty, and then does not touch the bucket. With both
    present but [S3_BUCKET] unset it answers 500 and the bucket is
    unchanged. It changes the bucket only for a well-formed request with
    [S3_BUCKET] set. *)
Theorem projectHandler_guards (S3_BUCKET replId language : option string) (bk : Bucket) :
  let '(status, body, bk') := projectHandler S3_BUCKET replId language bk in
  (status = 400%nat <-> falsy replId || falsy language = true) /\
  (falsy replId || falsy language = true -> body = bad_request /\ bk' = bk) /\
  (bucket_missing S3_BUCKET = true -> falsy replId || falsy language = false ->
     status = 500%nat /\ body = failed /\ bk' = bk) /\
  (bk' <> bk -> falsy replId || falsy language = false /\ bucket_missing S3_BUCKET = false).
Proof.
  assert (Hbad : falsy replId || falsy language = true ->
            projectHandler S3_BUCKET replId language bk = (400%nat, bad_request, bk)).
  { destruct replId as [r|], language as [l|]; intros H; unfold projectHandler;
      [rewrite H|..]; reflexivity. }
  assert (Hmiss : forall l r, bucket_missing S3_BUCKET = true ->
            provision S3_BUCKET l r bk = mkOut (Throw bucket_msg) bk []).
  { intros l r Hm. apply copyS3Folder_no_bucket, Hm. }
  destruct (falsy replId || falsy language) eqn:Hf.
  { rewrite Hbad by reflexivity.
    split; [tauto|]. split; [intros _; tauto|]. split; [intros _ H; discriminate H|].
    intros Hne. contradiction. }
  destruct replId as [r|]; [|discriminate].
  destruct language as [l|]; [|rewrite orb_true_r in Hf; discriminate].
  unfold projectHandler. rewrite Hf.
  destruct (res (provision S3_BUCKET l r bk)) eqn:Hr.
  - split; [split; [discriminate|intros H; discriminate H]|].
    split; [intros H; discriminate H|].
    split; [intros Hm; rewrite Hmiss in Hr by exact Hm; discriminate|].
    intros Hne. split; [reflexivity|].
    destruct (bucket_missing S3_BUCKET) eqn:Hm; [|reflexivity].
    rewrite Hmiss in Hne by reflexivity. contradiction.
  - split; [split; [discriminate|intros H; discriminate H]|].
    split; [intros H; discriminate H|].
    split; [intros Hm _; rewrite Hmiss by exact Hm; repeat split|].
    intros Hne. split; [reflexivity|].
    destruct (bucket_missing S3_BUCKET) eqn:Hm; [|reflexivity].
    rewrite Hmiss in Hne by reflexivity. contradiction.
Qed.

End S3CopyProps.

Module FileTreeProps.

Import Merge FileManager JsSplit.
Open Scope string_scope.
Open Scope list_scope.

(** [isChildSelected(directory, selectedFile)]: [isChild] updates the
    variable [res], which it returns here. [forEach] visits every
    subdirectory. *)
Fixpoint isChild (parentId : option string) (dir : Directory) (res : bool) : bool :=
  if decide (parentId = Some (d_id dir)) then true
  else if decide (parentId = Some "0") then false
  else (fix each (ds : list Directory) (res : bool) : bool :=
          match ds with
          | [] => res
          | item :: rest => each rest (isChild parentId item res)
          end) (d_dirs dir) res.

Definition isChildSelected (directory : Directory) (selectedFile : File) : bool :=
  isChild (f_parentId selectedFile) directory false.

(** A directory and every directory below it. *)
Fixpoint all_dirs (d : Directory) : list Directory :=
  d :: (fix each (ds : list Directory) : list Directory :=
          match ds with [] => [] | x :: rest => all_dirs x ++ each rest end) (d_dirs d).

(** The icons of [getIconHelper]'s cache, and its default [FcFile]. *)
Inductive Icon :=
| SiJavascript | SiTypescript | SiCss3 | SiJson | SiHtml5 | FcPicture
| AiFillFileText | FcFolder | FcOpenedFolder | FcFile.

(** The [cache] Map, in insertion order. *)
Definition icon_cache : list (string * Icon) :=
  [("js", SiJavascript); ("jsx", SiJavascript); ("ts", SiTypescript); ("tsx", SiTypescript);
   ("css", SiCss3); ("json", SiJson); ("html", SiHtml5);
   ("png", FcPicture); ("jpg", FcPicture); ("ico", FcPicture);
   ("txt", AiFillFileText);
   ("closedDirectory", FcFolder); ("openDirectory", FcOpenedFolder)].

(** [cache.has(k) ? cache.get(k) : ...]. *)
Definition icon_get (k : string) : option Icon :=
  option_map snd (find (fun kv => String.eqb kv.1 k) icon_cache).

(** [getIcon(extension, name)]. *)
Definition getIcon (extension name : string) : Icon :=
  match icon_get extension with
  | Some i => i
  | None => match icon_get name with Some i => i | None => FcFile end
  end.

(** [file.name.split('.').pop() || ""]. *)
Definition extension_of (name : string) : string :=
  from_option id "" (last (split_on "." name)).

(** The icon [FileDiv] shows: [<FileIcon name={icon}
    extension={...} />], where [FileIcon] calls
    [getIcon(extension || "", name || "")]. [DirDiv] passes
    ["openDirectory"] or ["closedDirectory"]; [SubTree] passes no
    [icon] for a file. *)
Definition file_div_icon (entryName : string) (icon : option string) : Icon :=
  getIcon (extension_of entryName) (from_option id "" icon).

Definition dir_icon (open : bool) : option string :=
  Some (if open then "openDirectory" else "closedDirectory").

(** Number of [/]-separated segments of a path. *)
Definition segs (p : string) : nat := length (split_slash p).

(** What [link] pushes: onto the root, the keys of entries whose
    [parentId] is ["0"]; onto the object at [P], keys of entries whose
    [parentId] is [P]. *)
Definition link_sound (E : Cache) (root : Root) (c : Cache) : Prop :=
  (forall k, In k (root_files root) \/ In k (root_dirs root) ->
     exists v, In (k, v) E /\ n_parentId v = Some "0") /\
  (forall P n k, cache_get P c = Some n -> In k (n_files n) \/ In k (n_dirs n) ->
     exists v, In (k, v) E /\ n_parentId v = Some P /\ P <> "0").

Lemma split_slash_on (s : string) : split_slash s = split_on "/" s.
Proof.
  induction s as [|c r IH]; [reflexivity|]. cbn [split_slash split_on]. rewrite IH. reflexivity.
Qed.

Lemma split_slash_join (l : list string) :
  l <> [] -> Forall (fun x => lacks "/" x = true) l -> split_slash (join_slash l) = l.
Proof.
  rewrite split_slash_on. induction l as [|x l IH]; intros Hne Hl; [contradiction|].
  inversion Hl as [|? ? Hx Hr]; subst.
  destruct l as [|y l]; [apply split_on_lacks, Hx|].
  rewrite join_slash_cons2. change ("/" +:+ join_slash (y :: l)) with (String "/" (join_slash (y :: l))).
  rewrite split_on_app_sep, split_on_lacks by exact Hx. rewrite IH by (discriminate || exact Hr).
  reflexivity.
Qed.

Lemma segs_parent (p : string) : 2 <= segs p -> segs (parent_path p) = segs p - 1.
Proof.
  unfold segs, parent_path. intros H.
  destruct (exists_last (split_slash_nil p)) as [l [x Hlx]]. rewrite Hlx in H |- *.
  rewrite removelast_last, length_app in *. cbn in H.
  rewrite split_slash_join; [cbn; lia|destruct l; cbn in H; [lia|discriminate]|].
  pose proof (split_on_pieces "/" p) as Hp. rewrite <- split_slash_on, Hlx in Hp.
  apply Forall_app in Hp. apply Hp.
Qed.

(** [`${baseDir}/${name}`] splits into the segments of [baseDir] and
    [name]. *)
Lemma split_slash_child (b n : string) :
  lacks "/" n = true -> split_slash (b +:+ "/" +:+ n) = split_slash b ++ [n].
Proof.
  intros Hn. rewrite !split_slash_on.
  change ("/" +:+ n) with (String "/" n). rewrite split_on_app_sep, (split_on_lacks _ n Hn).
  reflexivity.
Qed.

Lemma extension_of_dot (pre e : string) :
  lacks "." e = true -> extension_of (pre +:+ "." +:+ e) = e.
Proof.
  intros He. unfold extension_of. change ("." +:+ e) with (String "." e).
  rewrite split_on_app_sep, (split_on_lacks _ e He), last_app. reflexivity.
Qed.

Lemma extension_of_plain (name : string) : lacks "." name = true -> extension_of name = name.
Proof. intros H. unfold extension_of. rewrite split_on_lacks by exact H. reflexivity. Qed.

Lemma isChild_root (d : Directory) (res : bool) :
  isChild (Some "0") d res = bool_decide (d_id d = "0").
Proof.
  destruct d as [i n p par dep fs ds]. cbn [isChild d_id].
  destruct (decide (Some "0" = Some i)) as [H|H].
  - injection H as <-. rewrite bool_decide_true by reflexivity. reflexivity.
  - destruct (decide (@Some string "0" = Some "0")) as [_|H']; [|congruence].
    rewrite bool_decide_false by congruence. reflexivity.
Qed.

Lemma isChild_exists (pid : option string) (d : Directory) (res : bool) :
  pid <> Some "0" ->
  isChild pid d res = res || existsb (fun x => bool_decide (pid = Some (d_id x))) (all_dirs d).
Proof.
  intros H0. revert res. induction d as [i n p par dep fs ds IH] using Directory_ind'.
  intros res. cbn [isChild all_dirs d_id d_dirs existsb].
  case_decide as H1.
  { rewrite bool_decide_true by exact H1. destruct res; reflexivity. }
  case_decide as H2; [contradiction|]. rewrite bool_decide_false by exact H1. cbn [orb].
  revert res. induction IH as [|d ds Hd Hds IHds]; intros res; cbn; [rewrite orb_false_r; reflexivity|].
  rewrite IHds, Hd, existsb_app. destruct res; cbn; [reflexivity|].
  destruct (existsb _ (all_dirs d)); reflexivity.
Qed.

(** The parent of an entry, as [buildFileTree] computes it, is the
    object of an [attached] link; its path has one segment less. *)
Lemma getDepth_sound (c : Cache) :
  (forall P n k, cache_get P c = Some n -> In k (n_files n) \/ In k (n_dirs n) ->
     segs k = S (segs P)) ->
  forall f fl ds d L,
  getDepth f c fl ds d = Ok L ->
  (forall k, In k fl \/ In k ds -> segs k = S (S d)) ->
  forall k n, In (k, n) L -> segs k = S n.
Proof.
  intros Hc f. induction f as [|f IH]; intros fl ds d L Hg Hk; [discriminate|].
  cbn [getDepth] in Hg.
  assert (Hacc : forall acc, (forall k n, In (k, n) acc -> segs k = S n) ->
            forall ds', (forall k, In k ds' -> In k ds) ->
            (fix each (ds0 : list string) (acc0 : list (string * nat)) :=
               match ds0 with
               | [] => Ok acc0
               | d0 :: rest =>
                   match cache_get d0 c with
                   | Some n =>
                       match n_type n with
                       | DIRECTORY =>
                           match getDepth f c (n_files n) (n_dirs n) (S d) with
                           | Ok sub => each rest (acc0 ++ [(d0, S d)] ++ sub)
                           | Throw e => Throw e
                           end
                       | _ => Throw type_error
                       end
                   | None => Throw type_error
                   end
               end) ds' acc = Ok L ->
            forall k n, In (k, n) L -> segs k = S n).
  { intros acc Hacc ds'. revert acc Hacc. induction ds' as [|d0 rest IHr]; intros acc Hacc Hsub Hg'.
    - injection Hg' as <-. exact Hacc.
    - destruct (cache_get d0 c) as [n0|] eqn:Hn0; [|discriminate].
      destruct (n_type n0); try discriminate.
      destruct (getDepth f c (n_files n0) (n_dirs n0) (S d)) as [sub|e] eqn:Hsubd; [|discriminate].
      apply (IHr (acc ++ [(d0, S d)] ++ sub)); [|intros k Hk'; apply Hsub; right; exact Hk'|exact Hg'].
      assert (Hd0 : segs d0 = S (S d)) by (apply Hk; right; apply Hsub; left; reflexivity).
      intros k n Hin. apply in_app_or in Hin as [Hin|Hin]; [exact (Hacc k n Hin)|].
      destruct Hin as [[= <- <-]|Hin]; [exact Hd0|].
      apply (IH (n_files n0) (n_dirs n0) (S d) sub Hsubd); [|exact Hin].
      intros k' Hk'. rewrite (Hc d0 n0 k' Hn0 Hk'), Hd0. reflexivity. }
  apply (Hacc (map (fun k => (k, S d)) fl)) with (ds' := ds); [|tauto|exact Hg].
  intros k n Hin. apply in_map_iff in Hin as (k' & [= <- <-] & Hk'). apply Hk. left. exact Hk'.
Qed.

(** What a successful [getDepth] call assigns: depth [d + 1] to every
    key of [files] and [dirs], and, for each key of [dirs], all that the
    call on that directory object's arrays assigns. *)
Lemma getDepth_members (c : Cache) f : forall fl ds d L,
  getDepth f c fl ds d = Ok L ->
  (forall k, In k fl -> In (k, S d) L) /\
  (forall P, In P ds -> In (P, S d) L /\
     exists n f' L', cache_get P c = Some n /\
       getDepth f' c (n_files n) (n_dirs n) (S d) = Ok L' /\ (forall x, In x L' -> In x L)).
Proof.
  destruct f as [|f]; intros fl ds d L Hg; [discriminate|].
  cbn [getDepth] in Hg.
  assert (Hloop : forall ds' acc,
            (fix each (ds0 : list string) (acc0 : list (string * nat)) :=
               match ds0 with
               | [] => Ok acc0
               | d0 :: rest =>
                   match cache_get d0 c with
                   | Some n =>
                       match n_type n with
                       | DIRECTORY =>
                           match getDepth f c (n_files n) (n_dirs n) (S d) with
                           | Ok sub => each rest (acc0 ++ [(d0, S d)] ++ sub)
                           | Throw e => Throw e
                           end
                       | _ => Throw type_error
                       end
                   | None => Throw type_error
                   end
               end) ds' acc = Ok L ->
            (forall x, In x acc -> In x L) /\
            (forall P, In P ds' -> In (P, S d) L /\
               exists n f' L', cache_get P c = Some n /\
                 getDepth f' c (n_files n) (n_dirs n) (S d) = Ok L' /\ (forall x, In x L' -> In x L))).
  { induction ds' as [|d0 rest IH]; intros acc Hl.
    - injection Hl as <-. split; [tauto|intros P []].
    - destruct (cache_get d0 c) as [n0|] eqn:Hn0; [|discriminate].
      destruct (n_type n0); try discriminate.
      destruct (getDepth f c (n_files n0) (n_dirs n0) (S d)) as [sub|e] eqn:Hsub; [|discriminate].
      destruct (IH _ Hl) as [Hacc Hrest].
      split; [intros x Hx; apply Hacc, in_or_app; left; exact Hx|].
      intros P [<-|HP]; [|exact (Hrest P HP)].
      split; [apply Hacc, in_or_app; right; left; reflexivity|].
      exists n0, f, sub. split; [exact Hn0|]. split; [exact Hsub|].
      intros x Hx. apply Hacc, in_or_app. right. right. exact Hx. }
  destruct (Hloop ds _ Hg) as [Hacc Hds]. split; [|exact Hds].
  intros k Hk. apply Hacc, in_map_iff. exists k. split; [reflexivity|exact Hk].
Qed.

Lemma link_one_sound (E : Cache) (root : Root) (c : Cache) (k : string) (v : Node) st :
  link_sound E root c -> In (k, v) E -> link_one (Ok (root, c)) (k, v) = Ok st ->
  link_sound E st.1 st.2.
Proof.
  intros [Hr Hc] Hkv Hl. unfold link_one in Hl.
  case_decide as H0.
  - assert (Hst : st.1 = mkRoot (root_files root) (root_dirs root ++ [k]) \/
                  st.1 = mkRoot (root_files root ++ [k]) (root_dirs root))
      by (destruct (n_type v); injection Hl as <-; auto).
    assert (Hc' : st.2 = c) by (destruct (n_type v); injection Hl as <-; reflexivity).
    split; [|rewrite Hc'; exact Hc].
    intros k' Hk'.
    assert (Hk'' : In k' (root_files root) \/ In k' (root_dirs root) \/ k' = k)
      by (destruct Hst as [Hst|Hst]; rewrite Hst in Hk'; cbn in Hk';
          rewrite ?in_app_iff in Hk'; cbn in Hk'; intuition).
    destruct Hk'' as [H|[H| ->]]; [apply Hr; tauto|apply Hr; tauto|exists v; tauto].
  - destruct (n_parentId v) as [pid|] eqn:Hp; [|discriminate].
    destruct (cache_get pid c) as [pn|] eqn:Hpn; [|discriminate].
    destruct (n_type pn); try discriminate. injection Hl as <-. split; [exact Hr|].
    cbn. intros P n k' HP Hk'. rewrite cache_get_set in HP.
    destruct (String.eqb_spec P pid) as [->|Hne].
    + injection HP as <-.
      assert (Hk'' : In k' (n_files pn) \/ In k' (n_dirs pn) \/ k' = k)
        by (destruct (n_type v); cbn in Hk'; rewrite ?in_app_iff in Hk'; cbn in Hk'; intuition).
      destruct Hk'' as [H|[H| ->]]; [apply (Hc pid pn); tauto|apply (Hc pid pn); tauto|].
      exists v. split; [exact Hkv|]. split; [exact Hp|congruence].
    + apply (Hc P n k' HP Hk').
Qed.

Lemma link_sound_fold (E : Cache) (l : Cache) (root : Root) (c : Cache) st :
  (forall kv, In kv l -> In kv E) -> link_sound E root c ->
  fold_left link_one l (Ok (root, c)) = Ok st -> link_sound E st.1 st.2.
Proof.
  revert root c st. induction l as [|[k v] l IH] using rev_ind; intros root c st Hl Hs Hf.
  - cbn in Hf. injection Hf as <-. exact Hs.
  - rewrite fold_left_app in Hf. cbn [fold_left] in Hf.
    destruct (fold_left link_one l (Ok (root, c))) as [[root' c']|e] eqn:Hm; [|discriminate].
    apply (link_one_sound E root' c' k v st); [|apply Hl, in_or_app; right; left; reflexivity|exact Hf].
    apply (IH root c (root', c')); [intros kv Hkv; apply Hl, in_or_app; left; exact Hkv|exact Hs|exact Hm].
Qed.

Lemma link_sound_ok (c : Cache) (root : Root) (c' : Cache) :
  (forall k v, In (k, v) c -> n_files v = [] /\ n_dirs v = []) ->
  link c = Ok (root, c') -> link_sound c root c'.
Proof.
  intros Hempty Hl. apply (link_sound_fold c c (mkRoot [] []) c (root, c')); [tauto| |exact Hl].
  split; [cbn; tauto|]. intros P n k HP Hk.
  apply cache_get_In in HP. destruct (Hempty P n HP) as [E1 E2].
  rewrite E1, E2 in Hk. cbn in Hk. tauto.
Qed.

Lemma build_cache_forall (data : list RemoteFile) (Q : string * Node -> Prop) :
  (forall e, In e data -> Q (path e, dir_node (dirs_of data) e) /\ Q (path e, file_node (dirs_of data) e)) ->
  forall kv, In kv (build_cache data) -> Q kv.
Proof.
  intros HQ. unfold build_cache.
  assert (Hfold : forall (g : RemoteFile -> Node) l c,
    (forall x, In x l -> Q (path x, g x)) -> (forall kv, In kv c -> Q kv) ->
    forall kv, In kv (fold_left (fun c item => cache_set (path item) (g item) c) l c) -> Q kv).
  { intros g l. induction l as [|x l IH]; intros c Hg Hc; cbn [fold_left]; [exact Hc|].
    apply IH; [intros y Hy; apply Hg; right; exact Hy|].
    intros kv Hkv. apply cache_set_in in Hkv as [->|Hkv]; [apply Hg; left; reflexivity|auto]. }
  apply Hfold.
  - intros x Hx. apply List.filter_In in Hx as [Hx _]. apply (HQ x Hx).
  - apply Hfold; [|intros kv []].
    intros x Hx. apply List.filter_In in Hx as [Hx _]. apply (HQ x Hx).
Qed.

(** [fetchDir(dir, baseDir)] builds each path as
    [`${baseDir}/${name}`]; directory entry names contain no [/]. So the
    parent path [buildFileTree] computes for such an entry is [baseDir]
    again: an entry listed for the root ([baseDir = ""]) gets
    [parentId "0"], and an entry listed for a directory whose own path
    has a [/] gets that directory's path as [parentId] as soon as the
    directory is in the list. *)
Theorem fetchDir_parentId (baseDir : string) (entries : list (rtype * string))
  (dirs : list RemoteFile) :
  Forall (fun tn => lacks "/" tn.2 = true) entries ->
  forall e, In e (fetchDir baseDir entries) ->
  parent_path (path e) = baseDir /\ segs (path e) = S (segs baseDir) /\
  (baseDir = "" -> parentId_of dirs (path e) = Some "0") /\
  (2 <= segs baseDir -> (exists d, In d dirs /\ path d = baseDir) ->
     parentId_of dirs (path e) = Some baseDir).
Proof.
  intros Hn e He. unfold fetchDir in He. apply in_map_iff in He as ([t n] & <- & Hin).
  rewrite List.Forall_forall in Hn. specialize (Hn (t, n) Hin). cbn in Hn |- *.
  assert (Hs : split_slash (baseDir +:+ "/" +:+ n) = split_slash baseDir ++ [n])
    by (apply split_slash_child, Hn).
  assert (Hp : parent_path (baseDir +:+ "/" +:+ n) = baseDir)
    by (unfold parent_path; rewrite Hs, removelast_last; apply join_split).
  assert (Hl : segs (baseDir +:+ "/" +:+ n) = S (segs baseDir))
    by (unfold segs; rewrite Hs, length_app; cbn; lia).
  split; [exact Hp|]. split; [exact Hl|]. split.
  - intros ->. apply parentId_of_two. unfold segs in Hl. rewrite Hl. reflexivity.
  - intros H2 (d & Hd & Hpd). rewrite <- Hp at 2.
    apply (parentId_of_parent dirs _ d); [unfold segs in *; lia|exact Hd|rewrite Hpd; symmetry; exact Hp].
Qed.

Lemma fetchDir_parentId_witness :
  Forall (fun tn => lacks "/" tn.2 = true) [(RFile, "x.txt"); (RDir, "lib")] /\
  forall e, In e (fetchDir "/a" [(RFile, "x.txt"); (RDir, "lib")]) ->
  parent_path (path e) = "/a" /\ segs (path e) = S (segs "/a") /\
  ("/a" = "" -> parentId_of (dirs_of root_listing) (path e) = Some "0") /\
  (2 <= segs "/a" -> (exists d, In d (dirs_of root_listing) /\ path d = "/a") ->
     parentId_of (dirs_of root_listing) (path e) = Some "/a").
Proof.
  split; [repeat constructor|].
  apply fetchDir_parentId. repeat constructor.
Defined.

(** [DirDiv] starts open exactly when [isChildSelected] holds: when
    the selected file's [parentId] is the id of this directory or of a
    directory nested in it. A file at the top level ([parentId "0"])
    opens no directory whose id is not ["0"], and a file without a
    [parentId] opens none. *)
Theorem isChildSelected_iff (directory : Directory) (selectedFile : File) :
  isChildSelected directory selectedFile = true <->
  (f_parentId selectedFile = Some "0" /\ d_id directory = "0") \/
  (f_parentId selectedFile <> Some "0" /\
   exists x, In x (all_dirs directory) /\ f_parentId selectedFile = Some (d_id x)).
Proof.
  unfold isChildSelected. destruct (decide (f_parentId selectedFile = Some "0")) as [H0|H0].
  - rewrite H0, isChild_root, bool_decide_eq_true. split; [intros H; left; auto|].
    intros [[_ H]|[H _]]; [exact H|contradiction].
  - rewrite isChild_exists by exact H0. cbn [orb]. rewrite existsb_exists. split.
    + intros (x & Hx & Hb). apply bool_decide_eq_true in Hb. right. eauto.
    + intros [[H _]|(_ & x & Hx & Hb)]; [contradiction|].
      exists x. split; [exact Hx|]. apply bool_decide_eq_true. exact Hb.
Qed.

(** The icon shown for a directory whose name ends in [.e] (with no
    further [.] in [e]) is the icon of [e] when [e] is a key of the
    icon cache, and a folder icon only otherwise: [getIcon] consults
    the extension before the name. A file gets the icon of its
    extension, or [FcFile]. *)
Theorem dir_icon_extension_first (pre e : string) (open : bool) :
  lacks "." e = true ->
  file_div_icon (pre +:+ "." +:+ e) (dir_icon open) =
    match icon_get e with
    | Some i => i
    | None => if open then FcOpenedFolder else FcFolder
    end /\
  file_div_icon (pre +:+ "." +:+ e) None = from_option id FcFile (icon_get e).
Proof.
  intros He. unfold file_div_icon, getIcon. rewrite extension_of_dot by exact He.
  destruct (icon_get e) as [i|]; [split; reflexivity|].
  split; [destruct open; reflexivity|reflexivity].
Qed.

Lemma dir_icon_extension_first_witness :
  lacks "." "js" = true /\
  file_div_icon ("lib" +:+ "." +:+ "js") (dir_icon false) = SiJavascript /\
  file_div_icon ("lib" +:+ "." +:+ "js") None = SiJavascript.
Proof.
  split; [reflexivity|]. exact (dir_icon_extension_first "lib" "js" false eq_refl).
Defined.

(** A name without [.] is its own extension: a file called [json] gets
    the JSON icon, and a file called [openDirectory] the open-folder
    icon. *)
Theorem plain_name_is_extension (name : string) (icon : option string) :
  lacks "." name = true ->
  file_div_icon name icon =
    match icon_get name with
    | Some i => i
    | None => match icon_get (from_option id "" icon) with Some i => i | None => FcFile end
    end.
Proof. intros H. unfold file_div_icon, getIcon. rewrite extension_of_plain by exact H. reflexivity. Qed.

Lemma plain_name_is_extension_witness :
  lacks "." "openDirectory" = true /\ file_div_icon "openDirectory" None = FcOpenedFolder.
Proof. split; [reflexivity|]. exact (plain_name_is_extension "openDirectory" None eq_refl). Defined.

(** Every depth [getDepth] assigns is the entry's nesting level: the
    number of [/]-separated segments of its path minus one, so [1] for
    [/a] and [2] for [/a/x], provided every path has at least two
    segments (as paths built by [fetchDir] do). *)
Theorem buildFileTree_depth_is_level (data : list RemoteFile) (root : Root) (c : Cache)
  (depths : list (string * nat)) :
  Forall (fun e => 2 <= segs (path e)) data ->
  buildFileTree data = Ok (root, c, depths) ->
  forall k n, In (k, n) depths -> n = segs k - 1.
Proof.
  intros Hseg Hb. unfold buildFileTree in Hb.
  set (E := build_cache data) in *.
  destruct (link E) as [[root' c']|e] eqn:Hl; [|discriminate].
  destruct (getDepth _ c' (root_files root') (root_dirs root') 0) as [ds|e] eqn:Hg; [|discriminate].
  injection Hb as <- <- <-.
  rewrite List.Forall_forall in Hseg.
  assert (HE : forall kv, In kv E ->
            (n_files kv.2 = [] /\ n_dirs kv.2 = []) /\ 2 <= segs kv.1 /\
            n_parentId kv.2 = parentId_of (dirs_of data) kv.1).
  { apply build_cache_forall. intros x Hx. cbn. specialize (Hseg x Hx). auto 10. }
  destruct (link_sound_ok E root' c') as [Hroot Hchild]; [|exact Hl|].
  { intros k v Hkv. apply (HE (k, v) Hkv). }
  assert (Hkey : forall k v P, In (k, v) E -> n_parentId v = Some P ->
            (P = "0" /\ segs k = 2) \/ (P <> "0" /\ segs k = S (segs P))).
  { intros k v P Hkv Hp. destruct (HE (k, v) Hkv) as (_ & H2 & Hpid). cbn [fst snd] in H2, Hpid.
    rewrite Hpid in Hp. pose proof (parentId_of_Some _ _ _ Hp) as [->|HP].
    - left. split; [reflexivity|].
      destruct (decide (3 <= segs k)) as [H3|H3]; [|lia].
      exfalso. unfold parentId_of in Hp.
      destruct (Nat.eqb_spec (length (split_slash k)) 2); [unfold segs in H3; lia|].
      destruct (find _ _) as [x|] eqn:Hf; [|discriminate]. cbn in Hp. injection Hp as Hx.
      apply find_some in Hf as [_ Hf]. apply String.eqb_eq in Hf.
      apply (parent_path_not_root k H3). congruence.
    - destruct (String.eqb_spec P "0") as [->|Hne]; [left; split; [reflexivity|]|right; split; [exact Hne|]].
      + destruct (decide (3 <= segs k)) as [H3|H3]; [|lia].
        exfalso. apply (parent_path_not_root k H3). symmetry. apply HP. exact H3.
      + destruct (decide (3 <= segs k)) as [H3|H3].
        * rewrite (HP H3), segs_parent by lia. lia.
        * exfalso. apply Hne. unfold parentId_of in Hp.
          destruct (Nat.eqb_spec (length (split_slash k)) 2) as [_|Hn2];
            [injection Hp as <-; reflexivity|unfold segs in H3, H2; lia]. }
  intros k n Hin.
  cut (segs k = S n); [lia|].
  apply (getDepth_sound c') with (f := S (max_key_length c')) (fl := root_files root')
    (ds := root_dirs root') (d := 0) (L := ds); [| exact Hg | | exact Hin].
  - intros P nd k' HP Hk'. destruct (Hchild P nd k' HP Hk') as (v & Hkv & Hp & HP0).
    destruct (Hkey k' v P Hkv Hp) as [[? _]|[_ H]]; [contradiction|exact H].
  - intros k' Hk'. destruct (Hroot k' Hk') as (v & Hkv & Hp).
    destruct (Hkey k' v "0" Hkv Hp) as [[_ H]|[H _]]; [exact H|contradiction].
Qed.

Lemma buildFileTree_depth_is_level_witness :
  Forall (fun e => 2 <= segs (path e)) sample_tree /\
  buildFileTree sample_tree =
    Ok (mkRoot ["/y"] ["/a"],
        [("/a", mkNode DIRECTORY "a" "/a" (Some "0") ["/a/x"] []);
         ("/a/x", mkNode FILE "x" "/a/x" (Some "/a") [] []);
         ("/y", mkNode FILE "y" "/y" (Some "0") [] [])],
        [("/y", 1); ("/a", 1); ("/a/x", 2)]) /\
  (forall k n, In (k, n) [("/y", 1); ("/a", 1); ("/a/x", 2)] -> n = segs k - 1).
Proof.
  assert (Hs : Forall (fun e => 2 <= segs (path e)) sample_tree)
    by (repeat constructor; vm_compute; lia).
  assert (Hb : buildFileTree sample_tree =
    Ok (mkRoot ["/y"] ["/a"],
        [("/a", mkNode DIRECTORY "a" "/a" (Some "0") ["/a/x"] []);
         ("/a/x", mkNode FILE "x" "/a/x" (Some "/a") [] []);
         ("/y", mkNode FILE "y" "/y" (Some "0") [] [])],
        [("/y", 1); ("/a", 1); ("/a/x", 2)])) by (vm_compute; reflexivity).
  split; [exact Hs|]. split; [exact Hb|].
  exact (buildFileTree_depth_is_level sample_tree _ _ _ Hs Hb).
Defined.

(** Under the conditions under which [buildFileTree] completes
    (distinct paths of at least two segments, parent directories
    listed), [getDepth] reaches every entry: each one is assigned the
    depth [segs - 1] of its path. *)
Theorem buildFileTree_depth_complete (data : list RemoteFile) :
  NoDup (map path data) ->
  Forall (fun e => 2 <= segs (path e)) data ->
  parent_dirs_present data ->
  exists root c depths, buildFileTree data = Ok (root, c, depths) /\
    forall e, In e data -> In (path e, segs (path e) - 1) depths.
Proof.
  intros Hnd Hseg Hpar.
  destruct (buildFileTree_links_all data Hnd Hseg Hpar) as (root & c & depths & Hb & Hatt).
  exists root, c, depths. split; [exact Hb|].
  unfold buildFileTree in Hb.
  destruct (link (build_cache data)) as [[root' c']|e] eqn:Hl; [|discriminate].
  destruct (getDepth _ c' (root_files root') (root_dirs root') 0) as [ds|e] eqn:Hg; [|discriminate].
  injection Hb as <- <- <-.
  destruct (getDepth_members c' _ _ _ _ _ Hg) as [Hrf Hrd].
  rewrite List.Forall_forall in Hseg, Hatt. unfold parent_dirs_present in Hpar.
  rewrite List.Forall_forall in Hpar.
  assert (Hall : forall s e, In e data -> segs (path e) = s ->
            In (path e, s - 1) ds /\
            (rtype_of e = RDir -> exists n f' L', cache_get (path e) c' = Some n /\
               getDepth f' c' (n_files n) (n_dirs n) (s - 1) = Ok L' /\
               (forall x, In x L' -> In x ds))).
  { intros s. induction s as [s IH] using lt_wf_ind. intros e He Hs.
    destruct (Hatt e He) as [H2 H3].
    assert (Hs2 : 2 <= s) by (rewrite <- Hs; apply Hseg, He).
    destruct (decide (s = 2)) as [->|Hs3].
    - specialize (H2 Hs). cbn [Nat.sub].
      unfold ftype_of in H2. destruct (rtype_of e) eqn:Ht; cbn in H2.
      + split; [exact (Hrf _ H2)|discriminate].
      + destruct (Hrd _ H2) as [Hin (n & f' & L' & Hn & Hg' & Hincl)].
        split; [exact Hin|intros _; exists n, f', L'; auto].
    - destruct (H3 ltac:(unfold segs in Hs; lia)) as (n & Hn & Htn & Hch).
      destruct (Hpar e He ltac:(unfold segs in Hs; lia)) as (d & Hd & Hdt & Hdp).
      assert (Hsd : segs (path d) = s - 1)
        by (rewrite Hdp, segs_parent by (unfold segs in *; lia); rewrite Hs; reflexivity).
      destruct (IH (s - 1) ltac:(lia) d Hd Hsd) as [_ Hvis].
      destruct (Hvis Hdt) as (n' & f' & L' & Hn' & Hg' & Hincl).
      rewrite Hdp, Hn in Hn'. injection Hn' as <-.
      destruct (getDepth_members c' _ _ _ _ _ Hg') as [Hf Hds].
      replace (S (s - 1 - 1)) with (s - 1) in Hf, Hds by lia.
      unfold ftype_of in Hch. destruct (rtype_of e) eqn:Ht; cbn in Hch.
      + split; [apply Hincl, Hf, Hch|discriminate].
      + destruct (Hds _ Hch) as [Hin (m & f'' & L'' & Hm & Hg'' & Hincl')].
        split; [apply Hincl, Hin|].
        intros _. exists m, f'', L''. split; [exact Hm|]. split; [exact Hg''|].
        intros x Hx. apply Hincl, Hincl', Hx. }
  intros e He. exact (proj1 (Hall _ e He eq_refl)).
Qed.

Lemma buildFileTree_depth_complete_witness :
  NoDup (map path sample_tree) /\
  Forall (fun e => 2 <= segs (path e)) sample_tree /\
  parent_dirs_present sample_tree /\
  exists root c depths, buildFileTree sample_tree = Ok (root, c, depths) /\
    forall e, In e sample_tree -> In (path e, segs (path e) - 1) depths.
Proof.
  assert (H1 : NoDup (map path sample_tree)) by (apply (bool_decide_unpack _); vm_compute; exact I).
  assert (H2 : Forall (fun e => 2 <= segs (path e)) sample_tree)
    by (repeat constructor; vm_compute; lia).
  assert (H3 : parent_dirs_present sample_tree).
  { unfold parent_dirs_present. constructor; [cbn; lia|]. constructor; [|constructor; [cbn; lia|constructor]].
    intros _. exists (mkRemote RDir "a" "/a"). split; [left; reflexivity|]. split; reflexivity. }
  exact (conj H1 (conj H2 (conj H3 (buildFileTree_depth_complete sample_tree H1 H2 H3)))).
Defined.

End FileTreeProps.
